(** * graph_analysis.py: a shallow embedding and the properties of its analyses

    The Python program keeps one networkx [Graph].  We model it the way
    networkx stores it: an insertion-ordered list of node entries, each with
    the node's attributes and its adjacency dictionary (neighbour, attribute
    dictionary of the edge), also in insertion order.  Node labels read from
    GML and from the CSV event log are strings. *)

From Stdlib Require Import ZArith QArith Lia.
From stdpp Require Import base gmap list strings sorting.

Open Scope Z_scope.

(** ** Data model *)

(** Attribute dictionary of an edge: the optional ['sign'] (read with
    [int(...)], so an integer) and the computed ['no'] overlap value. *)
Record EAttr := mkEAttr { e_sign : option Z; e_no : option Q }.

(** One entry of [G._node]/[G._adj]: the node, its optional ['color'] and
    its adjacency dictionary. *)
Record Entry := mkEntry {
  n_id : string;
  n_color : option string;
  n_adj : list (string * EAttr)
}.

Definition Graph := list Entry.

(** [G.nodes()] *)
Definition nodes (G : Graph) : list string := map n_id G.

(** [G._adj[u]], iterated by [G.neighbors(u)] together with [G[u][v]]. *)
Definition adj_of (G : Graph) (u : string) : list (string * EAttr) :=
  match find (fun e => String.eqb (n_id e) u) G with
  | Some e => n_adj e
  | None => []
  end.

(** The shape networkx maintains for an undirected [Graph]: node keys are
    unique, adjacency keys are unique, every neighbour is a node, and the
    adjacency is symmetric with one shared attribute dictionary per edge. *)
Record wf (G : Graph) : Prop := {
  wf_nodup : List.NoDup (nodes G);
  wf_adj_nodup : forall e, In e G -> List.NoDup (map fst (n_adj e));
  wf_closed : forall u v a, In (v, a) (adj_of G u) -> In v (nodes G);
  wf_sym : forall u v a, In (v, a) (adj_of G u) -> In (u, a) (adj_of G v)
}.

(** ** [balance] (lines 77-89) *)

(** [int(G[u][v].get('sign',1))] *)
Definition sign_val (a : EAttr) : Z :=
  match e_sign a with Some z => z | None => 1 end.

(** [(1 if sign>=0 else -1)] *)
Definition factor (a : EAttr) : Z := if Z.leb 0 (sign_val a) then 1 else -1.

(** The inner [for v in G.neighbors(u)] loop: [None] is [return False];
    otherwise the updated [label] and queue. *)
Fixpoint scan (u : string) (label : gmap string Z) (q : list string)
    (l : list (string * EAttr)) : option (gmap string Z * list string) :=
  match l with
  | [] => Some (label, q)
  | (v, a) :: l' =>
      let exp := (label !!! u) * factor a in
      match label !! v with
      | None => scan u (<[v:=exp]> label) (q ++ [v]) l'
      | Some lv => if Z.eqb lv exp then scan u label q l' else None
      end
  end.

(** Outcome of a [while q] loop: finished with a labelling, [return False],
    or out of fuel (never reached on a well-formed graph, see
    [balance_never_stuck]). *)
Inductive bfs_res := BOk (label : gmap string Z) | BFail | BStuck.

(** [while q: u=q.popleft(); ...], one unit of fuel per pop. *)
Fixpoint drain (G : Graph) (fuel : nat) (label : gmap string Z)
    (q : list string) : bfs_res :=
  match q with
  | [] => BOk label
  | u :: q' =>
      match fuel with
      | O => BStuck
      | S f =>
          match scan u label q' (adj_of G u) with
          | None => BFail
          | Some (label', q'') => drain G f label' q''
          end
      end
  end.

(** [for s in G.nodes(): if s in label: continue; label[s]=1; q=deque([s]) ...];
    each node is enqueued at most once, so [len(G)] pops per search suffice. *)
Fixpoint sweep (G : Graph) (ns : list string) (label : gmap string Z) : bfs_res :=
  match ns with
  | [] => BOk label
  | s :: ns' =>
      match label !! s with
      | Some _ => sweep G ns' label
      | None =>
          match drain G (length G) (<[s:=1]> label) [s] with
          | BOk label' => sweep G ns' label'
          | r => r
          end
      end
  end.

Definition balance (G : Graph) : bool :=
  match sweep G (nodes G) ∅ with BOk _ => true | _ => false end.

(** The specification's notion: a +1/-1 labelling of the nodes in which
    every edge of non-negative sign joins equal labels and every edge of
    negative sign joins different labels. *)
Definition consistent_labelling (G : Graph) (c : string -> Z) : Prop :=
  (forall x, In x (nodes G) -> c x = 1 \/ c x = -1) /\
  (forall u v a, In (v, a) (adj_of G u) ->
     (0 <= sign_val a -> c u = c v) /\ (sign_val a < 0 -> c u <> c v)).

(** Executable check of [wf], used on the concrete graphs of the witnesses. *)
Definition opt_eqb {A} (eqb : A -> A -> bool) (x y : option A) : bool :=
  match x, y with
  | Some a, Some b => eqb a b
  | None, None => true
  | _, _ => false
  end.

Definition Q_syn_eqb (x y : Q) : bool :=
  Z.eqb (Qnum x) (Qnum y) && Pos.eqb (Qden x) (Qden y).

Definition eattr_eqb (a b : EAttr) : bool :=
  opt_eqb Z.eqb (e_sign a) (e_sign b) && opt_eqb Q_syn_eqb (e_no a) (e_no b).

Fixpoint nodupb (l : list string) : bool :=
  match l with
  | [] => true
  | x :: l' => negb (existsb (String.eqb x) l') && nodupb l'
  end.

Definition wfb (G : Graph) : bool :=
  nodupb (nodes G) &&
  forallb (fun e =>
    nodupb (map fst (n_adj e)) &&
    forallb (fun va =>
      existsb (String.eqb va.1) (nodes G) &&
      existsb (fun wb => String.eqb wb.1 (n_id e) && eattr_eqb wb.2 va.2)
        (adj_of G va.1)) (n_adj e)) G.

(** The same graph with every edge attribute dictionary passed through [f]. *)
Definition resign (f : EAttr -> EAttr) (G : Graph) : Graph :=
  map (fun e => mkEntry (n_id e) (n_color e) (map (fun va => (va.1, f va.2)) (n_adj e))) G.

(** [resign] with the new data depending on the edge's ends, as
    [set_edge_attributes] writes it. *)
Definition resign_at (g : string -> string -> EAttr -> EAttr) (G : Graph) : Graph :=
  map (fun e => mkEntry (n_id e) (n_color e) (map (fun va => (va.1, g (n_id e) va.1 va.2)) (n_adj e))) G.

(** ** [G.edges()] for an undirected [Graph]: each node in order, its
    neighbours not yet in [seen], then the node joins [seen]. *)
Fixpoint edges_from (seen : list string) (G : Graph) : list (string * string) :=
  match G with
  | [] => []
  | e :: G' =>
      map (fun v => (n_id e, v))
        (List.filter (fun v => negb (existsb (String.eqb v) seen)) (map fst (n_adj e)))
      ++ edges_from (n_id e :: seen) G'
  end.

Definition edges (G : Graph) : list (string * string) := edges_from [] G.

(** [G[u][v]]: the attribute dictionary of the edge, if there is one. *)
Definition edge_attr (G : Graph) (u v : string) : option EAttr :=
  match find (fun wa => String.eqb wa.1 v) (adj_of G u) with
  | Some wa => Some wa.2
  | None => None
  end.

(** ** [overlap] (lines 38-45) *)

(** [set(G.neighbors(u))] *)
Definition nbr_set (G : Graph) (u : string) : gset string :=
  list_to_set (map fst (adj_of G u)).

(** The loop body: [Nu,Nv=set(G.neighbors(u))-{v}, set(G.neighbors(v))-{u};
    d=len(Nu|Nv); 0 if d==0 else len(Nu&Nv)/d].  Python's [/] returns the
    float nearest to this quotient; the model keeps the exact rational. *)
Definition overlap_value (G : Graph) (u v : string) : Q :=
  let Nu := nbr_set G u ∖ {[v]} in
  let Nv := nbr_set G v ∖ {[u]} in
  let d := size (Nu ∪ Nv) in
  if Nat.eqb d 0 then 0%Q else (inject_Z (Z.of_nat (size (Nu ∩ Nv))) / inject_Z (Z.of_nat d))%Q.

(** Lookup in a Python dict keyed by node pairs, modelled as an association
    list in insertion order. *)
Definition pair_eqb (p q : string * string) : bool :=
  String.eqb p.1 q.1 && String.eqb p.2 q.2.

Definition dict_get {A} (k : string * string) (d : list ((string * string) * A)) : option A :=
  match find (fun kv => pair_eqb kv.1 k) d with Some kv => Some kv.2 | None => None end.

(** [tuple(sorted([u,v]))] *)
Definition sort_pair (u v : string) : string * string :=
  if String.leb u v then (u, v) else (v, u).

(** [G[a][b].update({'no': x})]: the dictionary is shared by both
    directions of the edge; a missing edge raises [KeyError], which
    [set_edge_attributes] swallows, and then nothing changes. *)
Definition set_no (a b : string) (x : Q) (G : Graph) : Graph :=
  map (fun e =>
    mkEntry (n_id e) (n_color e)
      (map (fun wa =>
         if (String.eqb (n_id e) a && String.eqb wa.1 b) ||
            (String.eqb (n_id e) b && String.eqb wa.1 a)
         then (wa.1, mkEAttr (e_sign wa.2) (Some x)) else wa) (n_adj e))) G.

(** [nx.set_edge_attributes(G, values)] for a dict of dicts. *)
Definition set_edge_no (values : list ((string * string) * Q)) (G : Graph) : Graph :=
  fold_left (fun G kv => set_no kv.1.1 kv.1.2 kv.2 G) values G.

(** [overlap(G)]: the graph after the update, and the returned [data]. *)
Definition overlap (G : Graph) : Graph * list ((string * string) * Q) :=
  let data := map (fun uv => (uv, overlap_value G uv.1 uv.2)) (edges G) in
  let values := map (fun uv => (sort_pair uv.1 uv.2,
                      match dict_get uv data with Some x => x | None => 0%Q end))
                  (edges G) in
  (set_edge_no values G, data).

(** ** [girvan_newman_partition] (lines 47-54)

    The networkx generator [girvan_newman(G)] is library code; the model
    receives what it yields, in order, as the list [gn], and what
    [nx.connected_components(G)] returns as [components].  networkx yields
    [tuple(nx.connected_components(G))] once when [G] has no edge, and
    otherwise yields a partition each time removing the most central edges
    has increased the number of connected components. *)

(** [sorted(list(c))] on node labels. *)
Fixpoint insert_str (x : string) (l : list string) : list string :=
  match l with
  | [] => [x]
  | y :: l' => if String.leb x y then x :: l else y :: insert_str x l'
  end.

Fixpoint sort_str (l : list string) : list string :=
  match l with [] => [] | x :: l' => insert_str x (sort_str l') end.

(** [for _ in range(k): comp=next(gen)] inside [try: ... except: pass]:
    an exhausted generator raises [StopIteration], which ends the loop and
    keeps the last [comp]. *)
Fixpoint advance (k : nat) (gen : list (list (list string)))
    (comp : list (list string)) : list (list string) :=
  match k with
  | O => comp
  | S k' => match gen with [] => comp | p :: gen' => advance k' gen' p end
  end.

(** [None] is the [StopIteration] of line 49 (outside the [try]), raised
    when [G] has edges but the generator yields nothing (only self-loops). *)
Definition girvan_newman_partition (number_of_edges : nat)
    (components : list (list string)) (gn : list (list (list string))) (n : Z)
    : option (list (list string)) :=
  let first := if Nat.eqb number_of_edges 0 then Some components else head gn in
  match first with
  | None => None
  | Some comp => Some (map sort_str (advance (Z.to_nat (n - 1)) gn comp))
  end.

(** What networkx guarantees of the generator: each yield has more
    communities than the previous one, and on a graph without edges it
    yields the connected components once. *)
Definition gn_contract (number_of_edges : nat) (components : list (list string))
    (gn : list (list (list string))) : Prop :=
  (forall i p q, nth_error gn i = Some p -> nth_error gn (S i) = Some q ->
     (length p < length q)%nat) /\
  (number_of_edges = 0%nat -> gn = [components]).

Fixpoint chain_le (l : list (list (list string))) : Prop :=
  match l with
  | a :: ((b :: _) as t) => (length a <= length b)%nat /\ chain_le t
  | _ => True
  end.

(** ** [homophily] (lines 60-75) *)

(** [G.nodes[u].get('color')] *)
Definition node_color (G : Graph) (u : string) : option string :=
  match find (fun e => String.eqb (n_id e) u) G with
  | Some e => n_color e
  | None => None
  end.

(** [G.degree(u)]: networkx counts a self-loop twice. *)
Definition degree (G : Graph) (u : string) : Z :=
  Z.of_nat (length (adj_of G u)) +
  (if existsb (fun wa => String.eqb wa.1 u) (adj_of G u) then 1 else 0).

(** The loop of lines 62-66: [same] and [diff] lists of per-edge
    similarities, edges with an endpoint without colour skipped. *)
Definition homophily_step (G : Graph) (acc : list Z * list Z) (uv : string * string)
    : list Z * list Z :=
  match node_color G uv.1, node_color G uv.2 with
  | Some cu, Some cv =>
      let sim := - Z.abs (degree G uv.1 - degree G uv.2) in
      if String.eqb cu cv then (acc.1 ++ [sim], acc.2) else (acc.1, acc.2 ++ [sim])
  | _, _ => acc
  end.

Definition homophily_groups (G : Graph) : list Z * list Z :=
  fold_left (homophily_step G) (edges G) ([], []).

(** Result of [homophily]: the error dictionary, or the rounded
    [t], [p] and [d].  The statistics are floating-point computations
    (Welch's test through scipy, or the fallback formula, and Cohen's d);
    the model leaves them to a function [welch] of the two samples. *)
Inductive hom_result (S : Type) := HomError (msg : string) | HomStats (stats : S).
Arguments HomError {S} msg.
Arguments HomStats {S} stats.

Definition homophily {S : Type} (welch : list Z -> list Z -> S) (G : Graph) : hom_result S :=
  let '(same, diff) := homophily_groups G in
  if Nat.ltb (length same) 2 || Nat.ltb (length diff) 2
  then HomError "not enough data"
  else HomStats (welch same diff).

(** The specification's counts: edges whose endpoints both carry a colour,
    with equal, respectively different, colours. *)
Definition same_label_edges (G : Graph) : nat :=
  length (List.filter (fun uv =>
    match node_color G uv.1, node_color G uv.2 with
    | Some cu, Some cv => String.eqb cu cv
    | _, _ => false
    end) (edges G)).

Definition diff_label_edges (G : Graph) : nat :=
  length (List.filter (fun uv =>
    match node_color G uv.1, node_color G uv.2 with
    | Some cu, Some cv => negb (String.eqb cu cv)
    | _, _ => false
    end) (edges G)).

(** ** [annotate] (lines 56-58) *)

(** [d={n:i for i,p in enumerate(parts) for n in p}]: a later part
    overwrites an earlier one. *)
Fixpoint community_map_from (i : nat) (parts : list (list string)) (d : gmap string nat)
    : gmap string nat :=
  match parts with
  | [] => d
  | p :: parts' => community_map_from (S i) parts' (fold_left (fun d n => <[n:=i]> d) p d)
  end.

(** [nx.set_node_attributes(G, d, 'community')]: [G.nodes[n]['community']=v]
    for each [n, v] of [d], a [KeyError] (node not in [G]) skipped.  The
    map [comm] holds the [community] attribute of the nodes that have one. *)
Definition annotate (G : Graph) (parts : list (list string)) (comm : gmap string nat)
    : gmap string nat :=
  fold_left (fun c kv => if existsb (String.eqb kv.1) (nodes G) then <[kv.1:=kv.2]> c else c)
    (map_to_list (community_map_from 0 parts ∅)) comm.

(** ** Edge removal, [stats], [simulate_failures], [robustness]
    (lines 91-109) *)

Definition edge_t := (string * string)%type.

(** [G.has_edge(u, v)] *)
Definition has_edge (G : Graph) (u v : string) : bool :=
  existsb (fun wa => String.eqb wa.1 v) (adj_of G u).

(** [Graph.remove_edges_from], one edge: [if u in adj and v in adj[u]:
    del adj[u][v]; if u != v: del adj[v][u]]; a missing edge is skipped. *)
Definition remove_edge (u v : string) (G : Graph) : Graph :=
  if has_edge G u v then
    map (fun e => mkEntry (n_id e) (n_color e)
      (List.filter (fun wa => negb ((String.eqb (n_id e) u && String.eqb wa.1 v) ||
                                    (String.eqb (n_id e) v && String.eqb wa.1 u)))
         (n_adj e))) G
  else G.

Definition remove_edges_from (rem : list edge_t) (G : Graph) : Graph :=
  fold_left (fun H uv => remove_edge uv.1 uv.2 H) rem G.

(** [G.number_of_edges()], documented by networkx as the number of edges
    of the graph, the ones [G.edges()] lists. *)
Definition number_of_edges (G : Graph) : nat := length (edges G).

(** [G.subgraph(c).copy()]: the nodes of [c] in [G]'s order, with the edges
    between them. *)
Definition subgraph (G : Graph) (c : list string) : Graph :=
  map (fun e => mkEntry (n_id e) (n_color e)
         (List.filter (fun wa => existsb (String.eqb wa.1) c) (n_adj e)))
    (List.filter (fun e => existsb (String.eqb (n_id e)) c) G).

(** The library routines [stats] and the failure simulations call:
    [nx.connected_components], [nx.average_shortest_path_length] (a float)
    and [random.sample], which draws from the module's generator state. *)
Record NxLib := mkNxLib {
  connected_components : Graph -> list (list string);
  average_shortest_path_length : Graph -> Q;
  sample : nat -> list edge_t -> nat -> list edge_t * nat
}.

(** [random.sample(population, k)] for [0 <= k <= len(population)]: [k]
    entries at distinct positions of the population. *)
Definition sample_contract (lib : NxLib) : Prop :=
  forall r pop k, (k <= length pop)%nat ->
    exists idx, List.NoDup idx /\ length idx = k /\
      map (nth_error pop) idx = map Some (sample lib r pop k).1.

Record Stats := mkStats { st_aspl : option Q; st_n : nat; st_sizes : list nat }.

(** [stats(G)]; [max(comps, key=...)] keeps the first largest component. *)
Definition stats (lib : NxLib) (G : Graph) : Stats :=
  let comps := map (subgraph G) (connected_components lib G) in
  match comps with
  | [] => mkStats None 0 []
  | c0 :: rest =>
      let LCC := fold_left (fun best H => if Nat.ltb (length best) (length H) then H else best)
                   rest c0 in
      mkStats (if Nat.ltb 0 (number_of_edges LCC)
               then Some (average_shortest_path_length lib LCC) else None)
              (length comps) (map length comps)
  end.

(** The Python heap as far as these functions use it: graph objects by
    identity, the next fresh identity, and the state of [random]. *)
Record State := mkState { heap : gmap nat Graph; next_id : nat; rng : nat }.

(** Fresh identities are above every allocated one. *)
Definition heap_ok (s : State) : Prop :=
  forall i, is_Some (heap s !! i) -> (i < next_id s)%nat.

(** State and exception monad: [None] is a raised exception. *)
Definition M (A : Type) : Type := State -> option (A * State).

Definition mret {A} (a : A) : M A := fun s => Some (a, s).

Definition mbind {A B} (m : M A) (k : A -> M B) : M B :=
  fun s => match m s with Some (a, s') => k a s' | None => None end.

Notation "x <-- m ;; k" := (mbind m (fun x => k))
  (at level 100, m at next level, right associativity).

Definition get_graph (g : nat) : M Graph :=
  fun s => match heap s !! g with Some G => Some (G, s) | None => None end.

Definition put_graph (g : nat) (G : Graph) : M unit :=
  fun s => Some (tt, mkState (<[g:=G]> (heap s)) (next_id s) (rng s)).

(** [G.copy()]: a new object holding the same graph. *)
Definition copy (g : nat) : M nat :=
  G <-- get_graph g ;;
  fun s => Some (next_id s, mkState (<[next_id s := G]> (heap s)) (S (next_id s)) (rng s)).

(** [random.sample(pop, k)] raises [ValueError] unless [0 <= k <= len(pop)]. *)
Definition random_sample (lib : NxLib) (pop : list edge_t) (k : Z) : M (list edge_t) :=
  fun s =>
    if Z.ltb k 0 || Z.ltb (Z.of_nat (length pop)) k then None
    else let '(smp, r') := sample lib (rng s) pop (Z.to_nat k) in
         Some (smp, mkState (heap s) (next_id s) r').

Definition remove_edges_obj (h : nat) (rem : list edge_t) : M unit :=
  H <-- get_graph h ;; put_graph h (remove_edges_from rem H).

Definition stats_obj (lib : NxLib) (h : nat) : M Stats :=
  H <-- get_graph h ;; mret (stats lib H).

Definition simulate_failures (lib : NxLib) (g : nat) (k : Z) : M (Stats * Stats) :=
  before <-- stats_obj lib g ;;
  h <-- copy g ;;
  G <-- get_graph g ;;
  rem <-- random_sample lib (edges G) (Z.min k (Z.of_nat (length (edges G)))) ;;
  _ <-- remove_edges_obj h rem ;;
  after <-- stats_obj lib h ;;
  mret (before, after).

(** The body of [for _ in range(trials)], appending each component count. *)
Fixpoint robustness_trials (lib : NxLib) (g : nat) (k : Z) (n : nat) (res : list nat)
    : M (list nat) :=
  match n with
  | O => mret res
  | S n' =>
      h <-- copy g ;;
      H <-- get_graph h ;;
      rem <-- random_sample lib (edges H) (Z.min k (Z.of_nat (number_of_edges H))) ;;
      _ <-- remove_edges_obj h rem ;;
      st <-- stats_obj lib h ;;
      robustness_trials lib g k n' (res ++ [st_n st])
  end.

(** [np.mean(res) if res else 0], as the exact mean. *)
Definition mean (res : list nat) : Q :=
  match res with
  | [] => 0%Q
  | _ => (inject_Z (Z.of_nat (list_sum res)) / inject_Z (Z.of_nat (length res)))%Q
  end.

Definition robustness (lib : NxLib) (g : nat) (k trials : Z) : M Q :=
  res <-- robustness_trials lib g k (Z.to_nat trials) [] ;;
  mret (mean res).

(** Small graphs used in the examples and witnesses. *)
Definition ea (s : option Z) : EAttr := mkEAttr s None.

Definition triangle (s1 s2 s3 : option Z) : Graph :=
  [ mkEntry "a" None [("b", ea s1); ("c", ea s3)];
    mkEntry "b" None [("a", ea s1); ("c", ea s2)];
    mkEntry "c" None [("b", ea s2); ("a", ea s3)] ].

Definition square : Graph :=
  [ mkEntry "a" None [("b", ea None); ("c", ea None); ("d", ea None)];
    mkEntry "b" None [("a", ea None); ("c", ea None)];
    mkEntry "c" None [("a", ea None); ("b", ea None); ("d", ea None)];
    mkEntry "d" None [("a", ea None); ("c", ea None)] ].

(** ** [add_edge], [add_node] (networkx [Graph]) *)

(** [G.add_node(u, **attr)]: a new node goes last; an existing one has its
    attributes updated. *)
Definition add_node_attr (u : string) (c : option string) (G : Graph) : Graph :=
  if existsb (String.eqb u) (nodes G)
  then map (fun e => if String.eqb (n_id e) u
                     then mkEntry (n_id e) (match c with Some _ => c | None => n_color e end) (n_adj e)
                     else e) G
  else G ++ [mkEntry u c []].

Definition add_node (u : string) (G : Graph) : Graph := add_node_attr u None G.

(** [adj[u][v] = d]: an existing key keeps its place, a new one goes last. *)
Definition set_adj (u v : string) (d : EAttr) (G : Graph) : Graph :=
  map (fun e =>
    if String.eqb (n_id e) u then
      mkEntry (n_id e) (n_color e)
        (if existsb (fun wa => String.eqb wa.1 v) (n_adj e)
         then map (fun wa => if String.eqb wa.1 v then (v, d) else wa) (n_adj e)
         else n_adj e ++ [(v, d)])
    else e) G.

(** [adj[u][v] = d] on a list of (key, data) pairs. *)
Definition upd_key (v : string) (d : EAttr) (l : list (string * EAttr)) : list (string * EAttr) :=
  if existsb (fun wa => String.eqb wa.1 v) l
  then map (fun wa => if String.eqb wa.1 v then (v, d) else wa) l
  else l ++ [(v, d)].

(** [datadict.update(attr)]: the attributes given override. *)
Definition eattr_update (old d : EAttr) : EAttr :=
  mkEAttr (match e_sign d with Some _ => e_sign d | None => e_sign old end)
          (match e_no d with Some _ => e_no d | None => e_no old end).

(** [G.add_edge(u, v, **attr)]: add [u], then [v], if missing; the data
    dictionary [adj[u].get(v, {})], updated, is stored both ways. *)
Definition add_edge_attr (u v : string) (d : EAttr) (G : Graph) : Graph :=
  let G1 := add_node v (add_node u G) in
  let old := match edge_attr G1 u v with Some a => a | None => mkEAttr None None end in
  let new := eattr_update old d in
  set_adj v u new (set_adj u v new G1).

Definition add_edge (u v : string) (G : Graph) : Graph := add_edge_attr u v (mkEAttr None None) G.

(** ** [parse_csv] and [temporal] (lines 132-152) *)

(** A row of [csv.DictReader] over the columns [timestamp,source,target,action]. *)
Record Row := mkRow { timestamp : string; source : string; target : string; action : string }.

(** [(t, src, tgt, action)]. *)
Definition event : Type := (Q * string * string * string)%type.

Definition ev_time (x : event) : Q := x.1.1.1.

(** [str.lower] on the ASCII letters. *)
Definition lower_ascii (c : Ascii.ascii) : Ascii.ascii :=
  let n := Ascii.nat_of_ascii c in
  if (Nat.leb 65 n && Nat.leb n 90)%bool then Ascii.ascii_of_nat (n + 32) else c.

Fixpoint lower (s : string) : string :=
  match s with
  | EmptyString => EmptyString
  | String c s' => String (lower_ascii c) (lower s')
  end.

(** The rows, in file order; [ts_of] is
    [datetime.fromisoformat(..).timestamp()], [None] where it raises. *)
Fixpoint parse_rows (ts_of : string -> option Q) (rows : list Row) : option (list event) :=
  match rows with
  | [] => Some []
  | r :: rows' =>
      match ts_of (timestamp r) with
      | None => None
      | Some t =>
          match parse_rows ts_of rows' with
          | None => None
          | Some ev => Some ((t, source r, target r, lower (action r)) :: ev)
          end
      end
  end.

(** Python's tuple order: by time, then source, target and action, strings
    compared code point by code point. *)
Definition cmp_then (c : comparison) (k : bool) : bool :=
  match c with Lt => true | Gt => false | Eq => k end.

Definition event_leb (x y : event) : bool :=
  let '(t1, s1, d1, a1) := x in
  let '(t2, s2, d2, a2) := y in
  cmp_then (Qcompare t1 t2)
    (cmp_then (String.compare s1 s2)
       (cmp_then (String.compare d1 d2)
          (cmp_then (String.compare a1 a2) true))).

Fixpoint ev_insert (x : event) (l : list event) : list event :=
  match l with
  | [] => [x]
  | y :: l' => if event_leb x y then x :: y :: l' else y :: ev_insert x l'
  end.

(** [sorted(ev)]. *)
Fixpoint ev_sort (l : list event) : list event :=
  match l with
  | [] => []
  | x :: l' => ev_insert x (ev_sort l')
  end.

Definition parse_csv (ts_of : string -> option Q) (rows : list Row) : option (list event) :=
  match parse_rows ts_of rows with
  | Some ev => Some (ev_sort ev)
  | None => None
  end.

(** One event of the loop of [temporal]. *)
Definition temporal_step (G : Graph) (x : event) : Graph :=
  let '(_, u, v, a) := x in
  if String.eqb a "add" then add_edge u v G
  else if (String.eqb a "remove" && has_edge G u v)%bool then remove_edge u v G
  else G.

(** [temporal(G, path)] without [out]: the graph [G] becomes, the snapshots
    and the return value. [layout(G)] only sets [G.graph['pos']], which no
    node or edge depends on. *)
Definition temporal (ts_of : string -> option Q) (G : Graph) (rows : list Row)
    : option (Graph * list Graph * nat) :=
  match parse_csv ts_of rows with
  | None => None
  | Some ev =>
      let '(G', snaps) :=
        fold_left (fun acc x => let G1 := temporal_step acc.1 x in (G1, acc.2 ++ [G1]))
          ev (G, []) in
      Some (G', snaps, length ev)
  end.

(** ** [load_graph] (lines 20-29) *)

(** The exceptions [load_graph] can raise. *)
Inductive Exn := FileNotFoundError (path : string) | NetworkXError.

Inductive Result (A : Type) := Ret (a : A) | Raise (e : Exn).
Arguments Ret {A} a.
Arguments Raise {A} e.

(** What [nx.read_gml] returns: an undirected graph (kept as it is), or a
    directed one given by its nodes with their [color] and its edges with
    their data. *)
Inductive GmlGraph :=
| GUndirected (G : Graph)
| GDirected (ns : list (string * option string)) (es : list (string * string * EAttr)).

(** [UG = nx.Graph()], the edges added first, then the nodes. *)
Definition to_undirected (ns : list (string * option string))
    (es : list (string * string * EAttr)) : Graph :=
  fold_left (fun H n => add_node_attr n.1 n.2 H) ns
    (fold_left (fun H e => add_edge_attr e.1.1 e.1.2 e.2 H) es []).

Definition as_undirected (g : GmlGraph) : Graph :=
  match g with
  | GUndirected G => G
  | GDirected ns es => to_undirected ns es
  end.

Definition number_of_nodes (G : Graph) : nat := length (nodes G).

(** [load_graph(path)]: the lines written to stderr and the outcome;
    [path_exists] is [os.path.exists] and [read_gml] is [nx.read_gml],
    [None] where it raises. *)
Definition load_graph (path_exists : string -> bool) (read_gml : string -> option GmlGraph)
    (path : string) : list string * Result Graph :=
  if negb (path_exists path) then ([], Raise (FileNotFoundError path))
  else match read_gml path with
       | None => ([], Raise NetworkXError)
       | Some g =>
           let G := as_undirected g in
           ((if Nat.eqb (number_of_nodes G) 0 then ["[warn] Empty graph"%string] else []), Ret G)
       end.

(** A timestamp parser for the example log, and the log itself, out of
    order and with mixed-case actions. *)
Definition ts_ex (s : string) : option Q :=
  match s with
  | "2024-01-01T00:00:01"%string => Some 1%Q
  | "2024-01-01T00:00:02"%string => Some 2%Q
  | "2024-01-01T00:00:03"%string => Some 3%Q
  | _ => None
  end.

Definition rows_ex : list Row :=
  [ mkRow "2024-01-01T00:00:02" "a" "b" "ADD";
    mkRow "2024-01-01T00:00:03" "a" "b" "Remove";
    mkRow "2024-01-01T00:00:01" "a" "c" "add" ].

(** A deterministic stand-in for the library: every node its own
    component, and [random.sample] taking the first [k] entries. *)
Definition lib_ex : NxLib :=
  mkNxLib (fun G => map (fun x => [x]) (nodes G)) (fun _ => 0%Q)
          (fun r pop k => (firstn k pop, r)).

(** A stand-in for a connected graph: one component holding every node. *)
Definition lib_one : NxLib :=
  mkNxLib (fun G => [nodes G]) (fun G => inject_Z (Z.of_nat (number_of_edges G)))
          (fun r pop k => (firstn k pop, r)).

(** A heap holding one graph, at identity [0]. *)
Definition state_ex (G : Graph) : State := mkState {[0%nat := G]} 1 0.


(** * Proofs *)

(** ** Examples *)

Example balance_ex1 : balance (triangle (Some 1) (Some (-1)) (Some (-1))) = true.
Proof. reflexivity. Qed.
Example balance_ex2 : balance (triangle (Some (-1)) (Some (-1)) (Some (-1))) = false.
Proof. reflexivity. Qed.
Example balance_ex3 : balance (triangle None (Some 0) None) = true.
Proof. reflexivity. Qed.

(** ** Structural balance *)

Lemma factor_pm (a : EAttr) : factor a = 1 \/ factor a = -1.
Proof. unfold factor. destruct (Z.leb 0 (sign_val a)); auto. Qed.

Lemma adj_of_node (G : Graph) u v a : In (v, a) (adj_of G u) -> In u (nodes G).
Proof.
  unfold adj_of, nodes. destruct (find _ G) as [e|] eqn:Hf; [|simpl; tauto].
  intros _. apply find_some in Hf as [Hin Heq].
  apply String.eqb_eq in Heq. subst u. by apply in_map.
Qed.

Lemma filter_length_mono {A} (p p' : A -> bool) (l : list A) :
  (forall x, p' x = true -> p x = true) ->
  (length (List.filter p' l) <= length (List.filter p l))%nat.
Proof.
  intros Hpp. induction l as [|x l IH]; simpl; [lia|].
  destruct (p' x) eqn:E1; [rewrite (Hpp x E1)|destruct (p x)]; simpl; lia.
Qed.

Lemma filter_length_strict {A} (p p' : A -> bool) (l : list A) v :
  (forall x, p' x = true -> p x = true) -> In v l -> p v = true -> p' v = false ->
  (length (List.filter p' l) < length (List.filter p l))%nat.
Proof.
  intros Hpp. induction l as [|x l IH]; simpl; [tauto|].
  intros [->|Hin] Hp Hp'.
  - rewrite Hp; rewrite Hp'; simpl. pose proof (filter_length_mono p p' l Hpp). lia.
  - specialize (IH Hin Hp Hp').
    destruct (p' x) eqn:E1; [rewrite (Hpp x E1)|destruct (p x)]; simpl; lia.
Qed.

Section Balance.

Variable G : Graph.

(** A labelled node whose every neighbour already carries the label the
    edge's sign forces. *)
Definition closed_at (label : gmap string Z) (x : string) : Prop :=
  exists lx, label !! x = Some lx /\
    forall v a, In (v, a) (adj_of G x) -> label !! v = Some (lx * factor a).

Definition pm_labels (label : gmap string Z) : Prop :=
  forall x z, label !! x = Some z -> z = 1 \/ z = -1.

(** Loop invariant of [while q]: labels are +1/-1, queued nodes are
    labelled, and a labelled node is queued or has had all its edges checked. *)
Definition bfs_inv (label : gmap string Z) (q : list string) : Prop :=
  pm_labels label /\
  (forall x, In x q -> is_Some (label !! x)) /\
  (forall x, is_Some (label !! x) -> In x q \/ closed_at label x).

(** Number of nodes still without a label: with the queue length, it bounds
    the pops left. *)
Definition unlabelled (label : gmap string Z) : nat :=
  length (List.filter (fun x => match label !! x with None => true | Some _ => false end)
            (nodes G)).

Lemma closed_at_weaken label label' x :
  label ⊆ label' -> closed_at label x -> closed_at label' x.
Proof.
  intros Hsub (lx & Hx & Hn). exists lx. split; [by eapply lookup_weaken|].
  intros v a Hin. eapply lookup_weaken; [by apply Hn|done].
Qed.

Lemma scan_spec u lu : forall l label q label' q',
  label !! u = Some lu ->
  scan u label q l = Some (label', q') ->
  label ⊆ label' /\
  (exists extra, q' = q ++ extra /\
     (forall x, In x extra -> is_Some (label' !! x) /\ label !! x = None) /\
     (forall x, label !! x = None -> is_Some (label' !! x) -> In x extra)) /\
  (forall v a, In (v, a) l -> label' !! v = Some (lu * factor a)) /\
  (pm_labels label -> (lu = 1 \/ lu = -1) -> pm_labels label').
Proof.
  induction l as [|[v a] l IH]; intros label q label' q' Hu Hscan; simpl in Hscan.
  - injection Hscan as <- <-. split; [done|]. split.
    + exists []. rewrite app_nil_r. split; [done|]. split; [simpl; tauto|].
      intros x Hn [z Hz]. congruence.
    + split; [simpl; tauto|done].
  - rewrite (lookup_total_correct _ _ _ Hu) in Hscan.
    destruct (label !! v) as [lv|] eqn:Hv.
    + destruct (Z.eqb_spec lv (lu * factor a)) as [Heq|]; [|discriminate].
      destruct (IH _ _ _ _ Hu Hscan) as (Hsub & Hextra & Hl & Hpm).
      split; [done|]. split; [done|]. split; [|done].
      intros w b [Hw|Hw]; [|by apply Hl].
      injection Hw as -> ->. subst lv. by eapply lookup_weaken.
    + assert (Hvu : v <> u) by (intros ->; congruence).
      assert (Hsub1 : label ⊆ <[v:=lu * factor a]> label) by by apply insert_subseteq.
      destruct (IH _ _ _ _ (lookup_weaken _ _ _ _ Hu Hsub1) Hscan)
        as (Hsub & (extra & -> & Hex1 & Hex2) & Hl & Hpm).
      split; [by trans (<[v:=lu * factor a]> label)|]. split.
      * exists (v :: extra). rewrite <- app_assoc. split; [done|]. split.
        -- intros x [<-|Hx].
           ++ split; [|done]. exists (lu * factor a).
              eapply lookup_weaken; [apply lookup_insert_eq|done].
           ++ destruct (Hex1 x Hx) as [Hs Hn]. split; [done|].
              rewrite lookup_insert_ne in Hn; [done|]. intros ->.
              rewrite lookup_insert_eq in Hn. discriminate.
        -- intros x Hn Hs. destruct (decide (x = v)) as [->|Hxv]; [by left|].
           right. apply Hex2; [|done]. by rewrite lookup_insert_ne.
      * split.
        -- intros w b [Hw|Hw]; [|by apply Hl]. injection Hw as -> ->.
           eapply lookup_weaken; [apply lookup_insert_eq|done].
        -- intros Hpm0 Hlu. apply Hpm; [|done].
           intros x z Hx. destruct (decide (x = v)) as [->|Hxv].
           ++ rewrite lookup_insert_eq in Hx. injection Hx as <-.
              destruct (factor_pm a) as [->| ->]; lia.
           ++ rewrite lookup_insert_ne in Hx; [|done]. by eapply Hpm0.
Qed.

Lemma drain_spec : forall fuel label q label',
  drain G fuel label q = BOk label' ->
  bfs_inv label q -> bfs_inv label' [] /\ label ⊆ label'.
Proof.
  induction fuel as [|f IH]; intros label q label' Hd Hinv.
  - destruct q; simpl in Hd; [injection Hd as <-; done|discriminate].
  - destruct q as [|u q]; simpl in Hd; [injection Hd as <-; done|].
    destruct (scan u label q (adj_of G u)) as [[label1 q1]|] eqn:Hs; [|discriminate].
    destruct Hinv as (Hpm & Hq & Hcl).
    destruct (Hq u (or_introl eq_refl)) as [lu Hu].
    destruct (scan_spec u lu _ _ _ _ _ Hu Hs)
      as (Hsub & (extra & -> & Hex1 & Hex2) & Hl & Hpm1).
    assert (Hinv1 : bfs_inv label1 (q ++ extra)).
    { split; [apply Hpm1; [done|by eapply Hpm]|]. split.
      - intros x Hx. apply in_app_or in Hx as [Hx|Hx].
        + destruct (Hq x (or_intror Hx)) as [z Hz]. exists z. by eapply lookup_weaken.
        + by apply Hex1.
      - intros x Hx. destruct (label !! x) as [z|] eqn:Hz.
        + destruct (Hcl x (ex_intro _ z Hz)) as [[<-|Hin]|Hc].
          * right. exists lu. split; [by eapply lookup_weaken|]. done.
          * left. apply in_or_app. by left.
          * right. by eapply closed_at_weaken.
        + left. apply in_or_app. right. by apply Hex2. }
    destruct (IH _ _ _ Hd Hinv1) as [Hinv' Hsub']. split; [done|]. by trans label1.
Qed.

Lemma sweep_spec : forall ns label label',
  sweep G ns label = BOk label' ->
  bfs_inv label [] ->
  bfs_inv label' [] /\ label ⊆ label' /\ (forall x, In x ns -> is_Some (label' !! x)).
Proof.
  induction ns as [|s ns IH]; intros label label' Hs Hinv; simpl in Hs.
  - injection Hs as <-. split; [done|]. split; [done|]. simpl; tauto.
  - destruct (label !! s) as [z|] eqn:Hz.
    + destruct (IH _ _ Hs Hinv) as (Hinv' & Hsub & Hall).
      split; [done|]. split; [done|]. intros x [<-|Hx]; [|by apply Hall].
      exists z. by eapply lookup_weaken.
    + destruct (drain G (length G) (<[s:=1]> label) [s]) as [label1| |] eqn:Hd;
        try discriminate.
      assert (Hinv0 : bfs_inv (<[s:=1]> label) [s]).
      { destruct Hinv as (Hpm & _ & Hcl). split; [|split].
        - intros x w Hx. destruct (decide (x = s)) as [->|Hxs].
          + rewrite lookup_insert_eq in Hx. injection Hx as <-. by left.
          + rewrite lookup_insert_ne in Hx; [|done]. by eapply Hpm.
        - intros x [<-|[]]. rewrite lookup_insert_eq. by eexists.
        - intros x Hx. destruct (decide (x = s)) as [->|Hxs]; [left; by left|].
          rewrite lookup_insert_ne in Hx; [|done].
          destruct (Hcl x Hx) as [[]|Hc]. right.
          eapply closed_at_weaken; [|done]. by apply insert_subseteq. }
      destruct (drain_spec _ _ _ _ Hd Hinv0) as [Hinv1 Hsub1].
      destruct (IH _ _ Hs Hinv1) as (Hinv' & Hsub & Hall).
      split; [done|]. split.
      * trans (<[s:=1]> label); [by apply insert_subseteq|]. by trans label1.
      * intros x [<-|Hx]; [|by apply Hall]. exists 1.
        eapply lookup_weaken; [apply lookup_insert_eq|]. by trans label1.
Qed.

(** If [balance] answers [True], the final labelling is consistent. *)
Lemma balance_sound : balance G = true -> exists c, consistent_labelling G c.
Proof.
  unfold balance. destruct (sweep G (nodes G) ∅) as [label| |] eqn:Hs; try discriminate.
  intros _.
  assert (Hinv0 : bfs_inv ∅ []).
  { split; [intros x z Hx; by rewrite lookup_empty in Hx|].
    split; [simpl; tauto|]. intros x [z Hx]. by rewrite lookup_empty in Hx. }
  destruct (sweep_spec _ _ _ Hs Hinv0) as ((Hpm & _ & Hcl) & _ & Hall).
  exists (fun x => match label !! x with Some z => z | None => 1 end). split.
  - intros x Hx. destruct (Hall x Hx) as [z Hz]. rewrite Hz. by eapply Hpm.
  - intros u v a Huv.
    destruct (Hcl u (Hall u (adj_of_node G u v a Huv))) as [[]|(lu & Hu & Hn)].
    rewrite Hu, (Hn v a Huv).
    destruct (Hpm u lu Hu) as [-> | ->]; unfold factor;
      destruct (Z.leb_spec 0 (sign_val a)); lia.
Qed.

Lemma unlabelled_mono label label' :
  label ⊆ label' -> (unlabelled label' <= unlabelled label)%nat.
Proof.
  intros Hsub. unfold unlabelled. apply filter_length_mono.
  intros x. destruct (label' !! x) eqn:E; [discriminate|].
  destruct (label !! x) eqn:E'; [|done].
  by rewrite (lookup_weaken _ _ _ _ E' Hsub) in E.
Qed.

Lemma unlabelled_insert label v z :
  label !! v = None -> In v (nodes G) ->
  (S (unlabelled (<[v:=z]> label)) <= unlabelled label)%nat.
Proof.
  intros Hv Hin. unfold unlabelled.
  apply (filter_length_strict _ _ _ v); [|done|by rewrite Hv|by rewrite lookup_insert_eq].
  intros x. destruct (decide (x = v)) as [->|Hxv]; [by rewrite Hv|].
  by rewrite lookup_insert_ne.
Qed.

Lemma unlabelled_le label : (unlabelled label <= length G)%nat.
Proof.
  unfold unlabelled. etrans; [apply List.filter_length_le|].
  unfold nodes. by rewrite length_map.
Qed.

Hypothesis Hwf : wf G.

(** Every pop labels only nodes of the graph, so the queue length plus the
    unlabelled count never grows across the inner loop. *)
Lemma scan_measure u : forall l label q label' q',
  incl l (adj_of G u) ->
  scan u label q l = Some (label', q') ->
  (length q' + unlabelled label' <= length q + unlabelled label)%nat.
Proof.
  induction l as [|[v a] l IH]; intros label q label' q' Hincl Hs; simpl in Hs.
  - injection Hs as <- <-. lia.
  - assert (Hl : incl l (adj_of G u)) by (intros x Hx; apply Hincl; by right).
    destruct (label !! v) eqn:Hv.
    + destruct (Z.eqb _ _); [|discriminate]. by apply (IH _ _ _ _ Hl Hs).
    + pose proof (IH _ _ _ _ Hl Hs) as Hm.
      pose proof (unlabelled_insert label v ((label !!! u) * factor a) Hv
                    (wf_closed G Hwf u v a (Hincl _ (or_introl eq_refl)))).
      rewrite length_app in Hm. simpl in Hm. lia.
Qed.

Lemma drain_not_stuck : forall fuel label q,
  (length q + unlabelled label <= fuel)%nat -> drain G fuel label q <> BStuck.
Proof.
  induction fuel as [|f IH]; intros label q Hm; destruct q as [|u q]; simpl;
    try discriminate; simpl in Hm; [lia|].
  destruct (scan u label q (adj_of G u)) as [[label1 q1]|] eqn:Hs; [|discriminate].
  apply IH. pose proof (scan_measure u _ _ _ _ _ (incl_refl _) Hs). lia.
Qed.

Lemma sweep_not_stuck : forall ns label,
  incl ns (nodes G) -> sweep G ns label <> BStuck.
Proof.
  induction ns as [|s ns IH]; intros label Hns; simpl; [discriminate|].
  assert (Hns' : incl ns (nodes G)) by (intros x Hx; apply Hns; by right).
  destruct (label !! s) eqn:Hs; [by apply IH|].
  pose proof (unlabelled_insert label s 1 Hs (Hns s (or_introl eq_refl))).
  pose proof (unlabelled_le label).
  destruct (drain G (length G) (<[s:=1]> label) [s]) eqn:Hd;
    [by apply IH|discriminate|].
  exfalso. refine (drain_not_stuck _ _ _ _ Hd). simpl. lia.
Qed.

(** The fuel of the model is never exhausted: [balance] returns [False]
    only through [return False]. *)
Lemma balance_never_stuck : sweep G (nodes G) ∅ <> BStuck.
Proof. apply sweep_not_stuck, incl_refl. Qed.

Section Complete.

Variable c : string -> Z.
Hypothesis Hc : consistent_labelling G c.

Lemma edge_forces u v a : In (v, a) (adj_of G u) -> c v = c u * factor a.
Proof.
  intros Huv. destruct Hc as [Hpm He].
  destruct (He u v a Huv) as [Hp Hn].
  destruct (Hpm u (adj_of_node G u v a Huv)) as [Hu|Hu];
  destruct (Hpm v (wf_closed G Hwf u v a Huv)) as [Hv|Hv];
  unfold factor; destruct (Z.leb_spec 0 (sign_val a)) as [Hs|Hs];
  try (specialize (Hp Hs)); try (specialize (Hn Hs)); lia.
Qed.

(** Invariant of one search seeded from a fresh node: labels set during
    this search are [k * c], queued nodes belong to this search, and
    [label0] (the labelling when it started) is kept. *)
Definition search_inv (label0 : gmap string Z) (k : Z)
    (label : gmap string Z) (q : list string) : Prop :=
  label0 ⊆ label /\
  (forall x, In x q -> label0 !! x = None /\ is_Some (label !! x)) /\
  (forall x z, label0 !! x = None -> label !! x = Some z -> z = k * c x).

Lemma scan_complete label0 k u :
  (forall x, is_Some (label0 !! x) -> closed_at label0 x) ->
  label0 !! u = None ->
  forall l label q, incl l (adj_of G u) ->
  search_inv label0 k label q -> label !! u = Some (k * c u) ->
  exists label' q', scan u label q l = Some (label', q') /\
    search_inv label0 k label' q'.
Proof.
  intros Hcl0 Hu0. induction l as [|[v a] l IH]; intros label q Hincl Hinv Hu; simpl.
  - by exists label, q.
  - assert (Hl : incl l (adj_of G u)) by (intros x Hx; apply Hincl; by right).
    assert (Hva : In (v, a) (adj_of G u)) by (apply Hincl; by left).
    rewrite (lookup_total_correct _ _ _ Hu).
    assert (Hexp : k * c u * factor a = k * c v) by (rewrite (edge_forces _ _ _ Hva); lia).
    destruct Hinv as (Hsub & Hq & Hk).
    destruct (label !! v) as [lv|] eqn:Hv.
    + assert (Hlv : lv = k * c u * factor a).
      { destruct (label0 !! v) as [lv0|] eqn:Hv0.
        - exfalso. destruct (Hcl0 v (ex_intro _ lv0 Hv0)) as (lx & Hx & Hn).
          specialize (Hn u a (wf_sym G Hwf u v a Hva)). congruence.
        - rewrite Hexp. by eapply Hk. }
      rewrite Hlv, Z.eqb_refl. apply IH; [done|split; [done|split; done]|done].
    + assert (Hvu : v <> u) by (intros ->; congruence).
      assert (Hv0 : label0 !! v = None).
      { destruct (label0 !! v) eqn:E; [|done].
        by rewrite (lookup_weaken _ _ _ _ E Hsub) in Hv. }
      apply IH; [done| |by rewrite lookup_insert_ne].
      split; [|split].
      * trans label; [done|by apply insert_subseteq].
      * intros x Hx. apply in_app_or in Hx as [Hx|[<-|[]]].
        -- destruct (Hq x Hx) as [H0 [z Hz]]. split; [done|].
           exists z. rewrite lookup_insert_ne; [done|]. intros ->; congruence.
        -- split; [done|]. rewrite lookup_insert_eq. by eexists.
      * intros x z Hx0 Hx. destruct (decide (x = v)) as [->|Hxv].
        -- rewrite lookup_insert_eq in Hx. injection Hx as <-. done.
        -- rewrite lookup_insert_ne in Hx; [|done]. by apply Hk.
Qed.

Lemma drain_complete label0 k :
  (forall x, is_Some (label0 !! x) -> closed_at label0 x) ->
  forall fuel label q,
  search_inv label0 k label q ->
  (length q + unlabelled label <= fuel)%nat ->
  exists label', drain G fuel label q = BOk label'.
Proof.
  intros Hcl0. induction fuel as [|f IH]; intros label q Hinv Hm;
    destruct q as [|u q]; simpl; [by eexists|simpl in Hm; lia|by eexists|].
  destruct Hinv as (Hsub & Hq & Hk).
  destruct (Hq u (or_introl eq_refl)) as [Hu0 [zu Hu]].
  pose proof (Hk u zu Hu0 Hu) as ->.
  destruct (scan_complete label0 k u Hcl0 Hu0 (adj_of G u) label q (incl_refl _))
    as (label1 & q1 & Hs & Hinv1); [|done|].
  { split; [done|split; [|done]]. intros x Hx. apply Hq. by right. }
  rewrite Hs. apply IH; [done|].
  pose proof (scan_measure u _ _ _ _ _ (incl_refl _) Hs). simpl in Hm. lia.
Qed.

Lemma sweep_complete : forall ns label,
  incl ns (nodes G) -> bfs_inv label [] ->
  exists label', sweep G ns label = BOk label'.
Proof.
  induction ns as [|s ns IH]; intros label Hns Hinv; simpl; [by eexists|].
  assert (Hns' : incl ns (nodes G)) by (intros x Hx; apply Hns; by right).
  assert (Hsn : In s (nodes G)) by (apply Hns; by left).
  destruct (label !! s) eqn:Hs; [by apply IH|].
  destruct Hinv as (Hpm & Hq & Hcl).
  assert (Hcl0 : forall x, is_Some (label !! x) -> closed_at label x).
  { intros x Hx. by destruct (Hcl x Hx) as [[]|]. }
  assert (Hcs : c s = 1 \/ c s = -1) by (destruct Hc as [Hpmc _]; by apply Hpmc).
  destruct (drain_complete label (c s) Hcl0 (length G) (<[s:=1]> label) [s])
    as [label1 Hd].
  - split; [by apply insert_subseteq|split].
    + intros x [<-|[]]. split; [done|]. rewrite lookup_insert_eq. by eexists.
    + intros x z Hx0 Hx. destruct (decide (x = s)) as [->|Hxs].
      * rewrite lookup_insert_eq in Hx. injection Hx as <-. lia.
      * rewrite lookup_insert_ne in Hx; [|done]. congruence.
  - pose proof (unlabelled_insert label s 1 Hs Hsn).
    pose proof (unlabelled_le label). simpl. lia.
  - rewrite Hd. apply IH; [done|].
    refine (proj1 (drain_spec _ _ _ _ Hd _)).
    split; [|split].
    + intros x w Hx. destruct (decide (x = s)) as [->|Hxs].
      * rewrite lookup_insert_eq in Hx. injection Hx as <-. by left.
      * rewrite lookup_insert_ne in Hx; [|done]. by eapply Hpm.
    + intros x [<-|[]]. rewrite lookup_insert_eq. by eexists.
    + intros x Hx. destruct (decide (x = s)) as [->|Hxs]; [left; by left|].
      rewrite lookup_insert_ne in Hx; [|done]. right.
      eapply closed_at_weaken; [by apply insert_subseteq|by apply Hcl0].
Qed.

(** A consistent labelling makes [balance] answer [True]. *)
Lemma balance_complete : balance G = true.
Proof.
  unfold balance.
  destruct (sweep_complete (nodes G) ∅ (incl_refl _)) as [label ->]; [|done].
  split; [intros x z Hx; by rewrite lookup_empty in Hx|].
  split; [simpl; tauto|]. intros x [z Hx]. by rewrite lookup_empty in Hx.
Qed.

End Complete.

End Balance.

Lemma adj_of_entry (G : Graph) u v a :
  In (v, a) (adj_of G u) -> exists e, In e G /\ n_id e = u /\ In (v, a) (n_adj e).
Proof.
  unfold adj_of. destruct (find _ G) as [e|] eqn:Hf; [|simpl; tauto].
  intros H. apply find_some in Hf as [Hin Heq]. apply String.eqb_eq in Heq.
  by exists e.
Qed.

Lemma nodupb_sound (l : list string) : nodupb l = true -> List.NoDup l.
Proof.
  induction l as [|x l IH]; simpl; intros H; [constructor|].
  apply andb_true_iff in H as [H1 H2]. constructor; [|by apply IH].
  intros Hx. apply negb_true_iff in H1. rewrite <- not_true_iff_false in H1.
  apply H1, existsb_exists. exists x. split; [exact Hx|apply String.eqb_refl].
Qed.

Lemma eattr_eqb_sound a b : eattr_eqb a b = true -> a = b.
Proof.
  destruct a as [s1 n1], b as [s2 n2]. unfold eattr_eqb. simpl.
  intros H. apply andb_true_iff in H as [H1 H2].
  destruct s1, s2; simpl in H1; try discriminate;
  [apply Z.eqb_eq in H1; subst|];
  (destruct n1 as [[p1 q1]|], n2 as [[p2 q2]|]; simpl in H2; try discriminate;
   [unfold Q_syn_eqb in H2; simpl in H2; apply andb_true_iff in H2 as [H3 H4];
    apply Z.eqb_eq in H3; apply Pos.eqb_eq in H4; subst|]; reflexivity).
Qed.

Lemma wfb_sound (G : Graph) : wfb G = true -> wf G.
Proof.
  unfold wfb. intros H. apply andb_true_iff in H as [Hnd Hall].
  apply nodupb_sound in Hnd. rewrite forallb_forall in Hall.
  assert (Hent : forall e, In e G -> List.NoDup (map fst (n_adj e)) /\
            forall v a, In (v, a) (n_adj e) ->
              In v (nodes G) /\ In (n_id e, a) (adj_of G v)).
  { intros e He. specialize (Hall e He). apply andb_true_iff in Hall as [H1 H2].
    apply nodupb_sound in H1. split; [done|]. intros v a Hva.
    rewrite forallb_forall in H2. specialize (H2 _ Hva).
    apply andb_true_iff in H2 as [H3 H4]. simpl in H3, H4.
    apply existsb_exists in H3 as (w & Hw & Hvw). apply String.eqb_eq in Hvw. subst w.
    apply existsb_exists in H4 as ([w b] & Hw' & Hwb).
    apply andb_true_iff in Hwb as [Hw1 Hw2]. simpl in Hw1, Hw2.
    apply String.eqb_eq in Hw1. apply eattr_eqb_sound in Hw2. subst. done. }
  split; [done|by intros e He; apply Hent| |].
  - intros u v a Huv. destruct (adj_of_entry G u v a Huv) as (e & He & _ & Hva).
    by apply (proj2 (Hent e He) v a Hva).
  - intros u v a Huv. destruct (adj_of_entry G u v a Huv) as (e & He & <- & Hva).
    by apply (proj2 (Hent e He) v a Hva).
Qed.

Section Resign.

Variable f : EAttr -> EAttr.
Hypothesis Hf : forall a, factor (f a) = factor a.

Lemma adj_of_resign G u :
  adj_of (resign f G) u = map (fun va => (va.1, f va.2)) (adj_of G u).
Proof.
  unfold adj_of. induction G as [|e G IH]; simpl; [done|].
  destruct (String.eqb (n_id e) u); [done|apply IH].
Qed.

Lemma scan_resign u : forall l label q,
  scan u label q (map (fun va => (va.1, f va.2)) l) = scan u label q l.
Proof.
  induction l as [|[v a] l IH]; intros label q; simpl; [done|].
  rewrite Hf. destruct (label !! v); [destruct (Z.eqb _ _)|]; auto.
Qed.

Lemma drain_resign G : forall fuel label q,
  drain (resign f G) fuel label q = drain G fuel label q.
Proof.
  induction fuel as [|n IH]; intros label q; destruct q as [|u q]; simpl; try done.
  rewrite adj_of_resign, scan_resign.
  destruct (scan u label q (adj_of G u)) as [[]|]; auto.
Qed.

Lemma sweep_resign G : forall ns label,
  sweep (resign f G) ns label = sweep G ns label.
Proof.
  assert (Hl : length (resign f G) = length G) by (unfold resign; apply length_map).
  induction ns as [|s ns IH]; intros label; cbn [sweep]; [done|].
  destruct (label !! s); [apply IH|]. rewrite Hl, drain_resign.
  destruct (drain G (length G) (<[s:=1]> label) [s]); auto.
Qed.

Lemma balance_resign G : balance (resign f G) = balance G.
Proof.
  unfold balance.
  assert (Hn : nodes (resign f G) = nodes G)
    by (unfold nodes, resign; rewrite map_map; done).
  by rewrite Hn, sweep_resign.
Qed.

End Resign.

(** ** Claim C1 *)

(** C1: on a well-formed undirected graph whose edges carry optional integer
    signs, [balance G] is [True] exactly when some +1/-1 labelling of the
    nodes makes every edge of non-negative sign join equal labels and every
    edge of negative sign join different labels; the sweep over all nodes
    seeds every component on its own. *)
Theorem balance_iff_two_colouring (G : Graph) (Hwf : wf G) :
  balance G = true <-> exists c, consistent_labelling G c.
Proof.
  split; [apply balance_sound|]. intros [c Hc]. by apply (balance_complete G Hwf c).
Qed.

Lemma balance_iff_two_colouring_witness :
  wf (triangle (Some 1) (Some (-1)) (Some (-1))) /\
  (balance (triangle (Some 1) (Some (-1)) (Some (-1))) = true <->
   exists c, consistent_labelling (triangle (Some 1) (Some (-1)) (Some (-1))) c).
Proof.
  split; [apply wfb_sound; vm_compute; reflexivity|].
  apply balance_iff_two_colouring. apply wfb_sound. vm_compute. reflexivity.
Defined.

(** ** Claim C10 *)

(** C10: [balance] reads a missing sign as +1 (filling every missing sign
    with 1 does not change the answer), reads sign 0 like any non-negative
    sign (replacing each sign by +1/-1 according to [sign >= 0] does not
    change the answer), and a well-formed graph without any sign is
    balanced. *)
Theorem balance_sign_defaults (G : Graph) :
  balance (resign (fun a => mkEAttr (Some (sign_val a)) (e_no a)) G) = balance G /\
  balance (resign (fun a => mkEAttr (Some (factor a)) (e_no a)) G) = balance G /\
  (wf G -> (forall u v a, In (v, a) (adj_of G u) -> e_sign a = None) ->
   balance G = true).
Proof.
  split; [|split].
  - apply balance_resign. intros a. reflexivity.
  - apply balance_resign. intros a. unfold factor at 1. simpl.
    destruct (factor_pm a) as [-> | ->]; reflexivity.
  - intros Hwf Hns. apply (balance_complete G Hwf (fun _ => 1)). split.
    + intros x _. by left.
    + intros u v a Huv. unfold sign_val. rewrite (Hns u v a Huv). lia.
Qed.

Example balance_sign_zero : balance (triangle (Some 0) (Some 0) (Some (-1))) = false.
Proof. reflexivity. Qed.

(** ** Edge enumeration and neighbourhood overlap *)

Lemma sort_pair_comm a b : sort_pair a b = sort_pair b a.
Proof.
  unfold sort_pair. destruct (String.leb a b) eqn:E1, (String.leb b a) eqn:E2.
  - by rewrite (String.leb_antisym a b E1 E2).
  - done.
  - done.
  - destruct (String.leb_total a b); congruence.
Qed.

Lemma sort_pair_eq a b p q :
  sort_pair a b = sort_pair p q <-> (a = p /\ b = q) \/ (a = q /\ b = p).
Proof.
  split.
  - unfold sort_pair. destruct (String.leb a b), (String.leb p q);
      intros H; injection H as -> ->; tauto.
  - intros [[-> ->]|[-> ->]]; [done|apply sort_pair_comm].
Qed.

Lemma sort_pair_idem a b :
  sort_pair (sort_pair a b).1 (sort_pair a b).2 = sort_pair a b.
Proof.
  apply sort_pair_eq. unfold sort_pair. destruct (String.leb a b); simpl; tauto.
Qed.

Lemma nodup_map_inj {A B} (f : A -> B) (l : list A) :
  (forall x y, f x = f y -> x = y) -> List.NoDup l -> List.NoDup (map f l).
Proof.
  intros Hinj. induction 1 as [|x l Hx Hnd IH]; simpl; constructor; [|done].
  intros Hin. apply in_map_iff in Hin as (y & Hy & Hin). apply Hinj in Hy. congruence.
Qed.

Lemma edges_from_in : forall G seen x y,
  In (x, y) (edges_from seen G) ->
  ~ In y seen /\ exists e, In e G /\ n_id e = x /\ In y (map fst (n_adj e)).
Proof.
  induction G as [|e G IH]; intros seen x y Hin; simpl in Hin; [done|].
  apply in_app_or in Hin as [Hin|Hin].
  - apply in_map_iff in Hin as (w & Hw & Hf). injection Hw as <- <-.
    apply filter_In in Hf as [Hy Hs]. split.
    + intros Hy'. apply negb_true_iff in Hs. rewrite <- not_true_iff_false in Hs.
      apply Hs, existsb_exists. exists w. split; [done|apply String.eqb_refl].
    + exists e. split; [by left|done].
  - destruct (IH _ _ _ Hin) as [Hns (e' & He' & Hx & Hy)]. split.
    + intros Hy'. apply Hns. by right.
    + exists e'. split; [by right|done].
Qed.

Lemma edges_from_nodup : forall G seen,
  List.NoDup (nodes G) -> (forall e, In e G -> List.NoDup (map fst (n_adj e))) ->
  List.NoDup (map (fun p => sort_pair p.1 p.2) (edges_from seen G)).
Proof.
  induction G as [|e G IH]; intros seen Hnd Hadj; simpl; [constructor|].
  unfold nodes in Hnd. simpl in Hnd. apply NoDup_cons_iff in Hnd as [He Hnd].
  rewrite map_app. apply List.NoDup_app.
  - rewrite map_map. simpl. apply nodup_map_inj.
    + intros m1 m2 Heq. apply sort_pair_eq in Heq. intuition congruence.
    + apply List.NoDup_filter. apply Hadj. by left.
  - apply IH; [done|]. intros e' He'. apply Hadj. by right.
  - intros k Hk1 Hk2.
    apply in_map_iff in Hk1 as ([x1 y1] & <- & Hk1).
    apply in_map_iff in Hk1 as (m & Hm & _). injection Hm as <- <-.
    apply in_map_iff in Hk2 as ([x2 y2] & Heq & Hk2). simpl in Heq.
    destruct (edges_from_in _ _ _ _ Hk2) as [Hns (e' & He' & Hx & _)].
    apply sort_pair_eq in Heq as [[-> ->]|[-> ->]].
    + apply He. rewrite <- Hx. by apply in_map.
    + apply Hns. by left.
Qed.

Lemma edges_nodup (G : Graph) :
  wf G -> List.NoDup (map (fun p => sort_pair p.1 p.2) (edges G)).
Proof. intros Hwf. apply edges_from_nodup; [apply Hwf|apply Hwf]. Qed.

Lemma adj_of_first (G : Graph) e :
  List.NoDup (nodes G) -> In e G -> adj_of G (n_id e) = n_adj e.
Proof.
  unfold adj_of, nodes. induction G as [|e' G IH]; intros Hnd He; [done|].
  simpl in *. apply NoDup_cons_iff in Hnd as [Hn Hnd].
  destruct He as [<-|He]; [by rewrite String.eqb_refl|].
  destruct (String.eqb_spec (n_id e') (n_id e)) as [Heq|]; [|by apply IH].
  exfalso. apply Hn. rewrite Heq. by apply in_map.
Qed.

Lemma edge_attr_of_adj (G : Graph) u v a :
  In (v, a) (adj_of G u) -> exists a', edge_attr G u v = Some a'.
Proof.
  unfold edge_attr. intros Hin.
  destruct (find _ (adj_of G u)) as [[w b]|] eqn:Hf; [by eexists|].
  exfalso. pose proof (find_none _ _ Hf _ Hin) as H. simpl in H.
  by rewrite String.eqb_refl in H.
Qed.

Lemma edges_are_edges (G : Graph) u v :
  wf G -> In (u, v) (edges G) ->
  (exists a, edge_attr G u v = Some a) /\ (exists a, edge_attr G v u = Some a).
Proof.
  intros Hwf Hin. destruct (edges_from_in _ _ _ _ Hin) as [_ (e & He & <- & Hv)].
  apply in_map_iff in Hv as ([w a] & Hw & Hva). simpl in Hw. subst w.
  rewrite <- (adj_of_first G e (wf_nodup G Hwf) He) in Hva.
  split; [by eapply edge_attr_of_adj|].
  eapply edge_attr_of_adj. by apply (wf_sym G Hwf).
Qed.

Lemma adj_of_set_no a b x (G : Graph) p :
  adj_of (set_no a b x G) p =
  map (fun wa => if (String.eqb p a && String.eqb wa.1 b) ||
                    (String.eqb p b && String.eqb wa.1 a)
                 then (wa.1, mkEAttr (e_sign wa.2) (Some x)) else wa) (adj_of G p).
Proof.
  unfold adj_of, set_no. induction G as [|e G IH]; simpl; [done|].
  destruct (String.eqb_spec (n_id e) p) as [<-|]; [done|apply IH].
Qed.

Lemma find_map_key (g : string * EAttr -> string * EAttr) l q :
  (forall wa, (g wa).1 = wa.1) ->
  find (fun wa => String.eqb wa.1 q) (map g l) =
  option_map g (find (fun wa => String.eqb wa.1 q) l).
Proof.
  intros Hg. induction l as [|wa l IH]; simpl; [done|].
  rewrite Hg. destruct (String.eqb wa.1 q); [done|apply IH].
Qed.

Lemma cond_sort_pair a b p q :
  (String.eqb p a && String.eqb q b) || (String.eqb p b && String.eqb q a) = true <->
  sort_pair a b = sort_pair p q.
Proof.
  rewrite sort_pair_eq, orb_true_iff, !andb_true_iff, !String.eqb_eq. intuition.
Qed.

Lemma edge_attr_set_no a b x (G : Graph) p q :
  edge_attr (set_no a b x G) p q =
  if (String.eqb p a && String.eqb q b) || (String.eqb p b && String.eqb q a)
  then option_map (fun att => mkEAttr (e_sign att) (Some x)) (edge_attr G p q)
  else edge_attr G p q.
Proof.
  unfold edge_attr. rewrite adj_of_set_no, find_map_key;
    [|intros wa; by destruct (_ || _)].
  destruct (find _ (adj_of G p)) as [[w att]|] eqn:Hf; simpl;
    [|by destruct (_ || _)].
  apply find_some in Hf as [_ Hw]. simpl in Hw. apply String.eqb_eq in Hw as ->.
  by destruct (_ || _).
Qed.

Lemma set_edge_no_other : forall vals (G : Graph) p q,
  (forall kv, In kv vals -> sort_pair kv.1.1 kv.1.2 <> sort_pair p q) ->
  edge_attr (set_edge_no vals G) p q = edge_attr G p q.
Proof.
  unfold set_edge_no. induction vals as [|[[a b] x] vals IH]; intros G p q Hne;
    simpl; [done|].
  rewrite IH; [|intros kv Hkv; apply Hne; by right].
  rewrite edge_attr_set_no.
  destruct (_ || _) eqn:Hc; [|done].
  exfalso. apply cond_sort_pair in Hc. by apply (Hne ((a, b), x)); [left|].
Qed.

Lemma set_edge_no_get : forall vals (G : Graph) p q a b x,
  List.NoDup (map (fun kv => sort_pair kv.1.1 kv.1.2) vals) ->
  In ((a, b), x) vals -> sort_pair a b = sort_pair p q ->
  is_Some (edge_attr G p q) ->
  option_map e_no (edge_attr (set_edge_no vals G) p q) = Some (Some x).
Proof.
  induction vals as [|[[a' b'] x'] vals IH]; intros G p q a b x Hnd Hin Hab Hs;
    [done|].
  simpl in Hnd. apply NoDup_cons_iff in Hnd as [Hn Hnd].
  unfold set_edge_no. simpl. fold (set_edge_no vals (set_no a' b' x' G)).
  destruct Hin as [Heq|Hin].
  - injection Heq as -> -> ->.
    rewrite set_edge_no_other.
    + rewrite edge_attr_set_no. apply cond_sort_pair in Hab as ->.
      destruct Hs as [att ->]. done.
    + intros kv Hkv Heq. apply Hn. rewrite Hab, <- Heq.
      exact (in_map (fun kv => sort_pair kv.1.1 kv.1.2) _ _ Hkv).
  - apply (IH _ _ _ a b); [done|done|done|].
    rewrite edge_attr_set_no.
    destruct (_ || _); [|done]. destruct Hs as [att ->]. by eexists.
Qed.

Lemma overlap_value_bounds (G : Graph) u v :
  (0 <= overlap_value G u v <= 1)%Q.
Proof.
  unfold overlap_value.
  set (Nu := nbr_set G u ∖ {[v]}). set (Nv := nbr_set G v ∖ {[u]}).
  destruct (Nat.eqb_spec (size (Nu ∪ Nv)) 0) as [|Hd]; [split; discriminate|].
  assert (Hle : (size (Nu ∩ Nv) <= size (Nu ∪ Nv))%nat)
    by (apply subseteq_size; set_solver).
  assert (Hpos : (0 < inject_Z (Z.of_nat (size (Nu ∪ Nv))))%Q)
    by (change 0%Q with (inject_Z 0); rewrite <- Zlt_Qlt; lia).
  split.
  - apply Qle_shift_div_l; [done|]. rewrite Qmult_0_l.
    change 0%Q with (inject_Z 0). rewrite <- Zle_Qle. lia.
  - apply Qle_shift_div_r; [done|]. rewrite Qmult_1_l. rewrite <- Zle_Qle. lia.
Qed.

Lemma dict_get_keyed {A} (f : string * string -> A) k l :
  In k l -> dict_get k (map (fun uv => (uv, f uv)) l) = Some (f k).
Proof.
  intros Hin. unfold dict_get.
  destruct (find _ _) as [[k' y]|] eqn:Hf.
  - apply find_some in Hf as [Hk Heq]. simpl in Heq.
    apply in_map_iff in Hk as (k'' & Hk & _). injection Hk as Hk1 Hk2. subst k' y.
    destruct k as [k1 k2], k'' as [k1' k2']. unfold pair_eqb in Heq. simpl in Heq.
    apply andb_true_iff in Heq as [H1 H2].
    apply String.eqb_eq in H1, H2. subst. done.
  - exfalso. pose proof (find_none _ _ Hf (k, f k)) as H.
    unfold pair_eqb in H. simpl in H. rewrite !String.eqb_refl in H.
    simpl in H. discriminate H. apply in_map_iff. by exists k.
Qed.

(** ** Claim C3 *)

(** C3: for every edge [(u,v)] listed by [G.edges()], with
    [Nu = neighbors(u) - {v}] and [Nv = neighbors(v) - {u}], the overlap is 0
    when [Nu | Nv] is empty and [|Nu & Nv| / |Nu | Nv|] otherwise; [overlap]
    returns it under the key [(u,v)], stores it as the ['no'] attribute of
    the edge (seen from both endpoints), and it lies in [0,1]. *)
Theorem overlap_jaccard (G : Graph) (Hwf : wf G) (u v : string)
    (Huv : In (u, v) (edges G)) :
  let Nu := nbr_set G u ∖ {[v]} in
  let Nv := nbr_set G v ∖ {[u]} in
  (Nu ∪ Nv = ∅ -> overlap_value G u v = 0%Q) /\
  (Nu ∪ Nv <> ∅ -> overlap_value G u v =
     (inject_Z (Z.of_nat (size (Nu ∩ Nv))) / inject_Z (Z.of_nat (size (Nu ∪ Nv))))%Q) /\
  dict_get (u, v) (overlap G).2 = Some (overlap_value G u v) /\
  option_map e_no (edge_attr (overlap G).1 u v) = Some (Some (overlap_value G u v)) /\
  option_map e_no (edge_attr (overlap G).1 v u) = Some (Some (overlap_value G u v)) /\
  (0 <= overlap_value G u v <= 1)%Q.
Proof.
  intros Nu Nv. split; [|split; [|split; [|split; [|split]]]].
  - intros He. unfold overlap_value. fold Nu Nv. rewrite He, size_empty. done.
  - intros Hne. unfold overlap_value. fold Nu Nv.
    destruct (Nat.eqb_spec (size (Nu ∪ Nv)) 0) as [Hs|]; [|done].
    exfalso. apply Hne. apply leibniz_equiv. by apply size_empty_inv.
  - apply dict_get_keyed with (f := fun uv => overlap_value G uv.1 uv.2). done.
  - destruct (edges_are_edges G u v Hwf Huv) as [[a1 Ha1] _].
    unfold overlap. simpl.
    apply (set_edge_no_get _ _ _ _ (sort_pair u v).1 (sort_pair u v).2).
    + rewrite map_map. simpl.
      erewrite map_ext; [apply (edges_nodup G Hwf)|]. intros uv. apply sort_pair_idem.
    + apply in_map_iff. exists (u, v). split; [|done]. simpl.
      rewrite (dict_get_keyed (fun uv => overlap_value G uv.1 uv.2)); [|done].
      by destruct (sort_pair u v).
    + apply sort_pair_idem.
    + by eexists.
  - destruct (edges_are_edges G u v Hwf Huv) as [_ [a1 Ha1]].
    unfold overlap. simpl.
    apply (set_edge_no_get _ _ _ _ (sort_pair u v).1 (sort_pair u v).2).
    + rewrite map_map. simpl.
      erewrite map_ext; [apply (edges_nodup G Hwf)|]. intros uv. apply sort_pair_idem.
    + apply in_map_iff. exists (u, v). split; [|done]. simpl.
      rewrite (dict_get_keyed (fun uv => overlap_value G uv.1 uv.2)); [|done].
      by destruct (sort_pair u v).
    + rewrite sort_pair_idem. apply sort_pair_comm.
    + by eexists.
  - apply overlap_value_bounds.
Qed.

Lemma overlap_jaccard_witness :
  wf square /\ In ("a", "c") (edges square) /\
  option_map e_no (edge_attr (overlap square).1 "c" "a") =
    Some (Some (overlap_value square "a" "c")).
Proof.
  assert (Hwf : wf square) by (apply wfb_sound; vm_compute; reflexivity).
  assert (Hin : In ("a", "c") (edges square)) by (simpl; tauto).
  split; [done|]. split; [done|].
  exact (proj1 (proj2 (proj2 (proj2 (overlap_jaccard square Hwf "a" "c" Hin))))).
Defined.

(** ** Community partition *)

Lemma advance_step : forall k gen comp,
  chain_le (comp :: gen) ->
  (length (advance k gen comp) <= length (advance (S k) gen comp))%nat.
Proof.
  induction k as [|k IH]; intros gen comp Hc; destruct gen as [|p gen]; simpl; try lia.
  - simpl in Hc. lia.
  - apply IH. simpl in Hc. destruct Hc as [_ Hc]. done.
Qed.

Lemma advance_mono k k' gen comp :
  chain_le (comp :: gen) -> (k <= k')%nat ->
  (length (advance k gen comp) <= length (advance k' gen comp))%nat.
Proof.
  intros Hc Hk. induction Hk as [|k' Hk IH]; [lia|].
  etrans; [apply IH|by apply advance_step].
Qed.

Lemma chain_of_increasing : forall gn,
  (forall i p q, nth_error gn i = Some p -> nth_error gn (S i) = Some q ->
     (length p < length q)%nat) ->
  chain_le gn.
Proof.
  induction gn as [|a gn IH]; intros Hinc; simpl; [done|].
  destruct gn as [|b gn]; [done|]. split.
  - specialize (Hinc 0%nat a b eq_refl eq_refl). lia.
  - apply IH. intros i p q Hp Hq. by apply (Hinc (S i)).
Qed.

(** ** Claim C2 *)

(** C2: for split counts [n1 <= n2], the partition returned for [n1] has at
    most as many communities as the one returned for [n2]; whether the call
    raises does not depend on [n]. *)
Theorem girvan_newman_partition_monotone (m : nat) (components : list (list string))
    (gn : list (list (list string))) (Hgn : gn_contract m components gn)
    (n1 n2 : Z) (Hn : n1 <= n2) :
  (girvan_newman_partition m components gn n1 = None <->
   girvan_newman_partition m components gn n2 = None) /\
  (forall p1 p2,
     girvan_newman_partition m components gn n1 = Some p1 ->
     girvan_newman_partition m components gn n2 = Some p2 ->
     (length p1 <= length p2)%nat).
Proof.
  destruct Hgn as [Hinc Hnoe]. unfold girvan_newman_partition.
  assert (Hch : forall comp, (Nat.eqb m 0 = true -> comp = components) ->
            (Nat.eqb m 0 = false -> head gn = Some comp) -> chain_le (comp :: gn)).
  { intros comp H1 H2. destruct (Nat.eqb_spec m 0) as [Hm|Hm].
    - rewrite (H1 eq_refl), (Hnoe Hm). simpl. lia.
    - specialize (H2 eq_refl). destruct gn as [|a gn]; [discriminate|].
      injection H2 as ->. pose proof (chain_of_increasing _ Hinc) as Hc.
      simpl. split; [lia|done]. }
  destruct (if Nat.eqb m 0 then Some components else head gn) as [comp|] eqn:Hf.
  - split; [split; discriminate|]. intros p1 p2 H1 H2.
    injection H1 as <-. injection H2 as <-. rewrite !length_map.
    apply advance_mono; [|lia].
    apply Hch; intros He; rewrite He in Hf; simpl in Hf; congruence.
  - split; [done|]. intros p1 p2 H1. discriminate.
Qed.

Lemma girvan_newman_partition_monotone_witness :
  gn_contract 2 [["a"; "b"; "c"]] [[["a"; "b"]; ["c"]]; [["a"]; ["b"]; ["c"]]] /\
  (1 <= 5)%Z /\
  (forall p1 p2,
     girvan_newman_partition 2 [["a"; "b"; "c"]] [[["a"; "b"]; ["c"]]; [["a"]; ["b"]; ["c"]]] 1 = Some p1 ->
     girvan_newman_partition 2 [["a"; "b"; "c"]] [[["a"; "b"]; ["c"]]; [["a"]; ["b"]; ["c"]]] 5 = Some p2 ->
     (length p1 <= length p2)%nat).
Proof.
  assert (Hc : gn_contract 2 [["a"; "b"; "c"]] [[["a"; "b"]; ["c"]]; [["a"]; ["b"]; ["c"]]]).
  { split; [|discriminate].
    intros [|[|i]] p q Hp Hq; simpl in Hp, Hq; try discriminate.
    injection Hp as <-. injection Hq as <-. simpl. lia. }
  split; [done|]. split; [lia|].
  refine (proj2 (girvan_newman_partition_monotone _ _ _ Hc 1 5 _)). lia.
Defined.

Example girvan_newman_partition_ex :
  map (fun n => option_map (@length (list string))
         (girvan_newman_partition 2 [["a"; "b"; "c"]]
            [[["a"; "b"]; ["c"]]; [["a"]; ["b"]; ["c"]]] n)) [0; 1; 2; 3; 4]
  = [Some 2%nat; Some 2%nat; Some 2%nat; Some 3%nat; Some 3%nat].
Proof. reflexivity. Qed.

(** ** Homophily *)

Lemma homophily_fold (G : Graph) : forall l s d,
  let r := fold_left (homophily_step G) l (s, d) in
  length r.1 = (length s + length (List.filter (fun uv =>
    match node_color G uv.1, node_color G uv.2 with
    | Some cu, Some cv => String.eqb cu cv
    | _, _ => false
    end) l))%nat /\
  length r.2 = (length d + length (List.filter (fun uv =>
    match node_color G uv.1, node_color G uv.2 with
    | Some cu, Some cv => negb (String.eqb cu cv)
    | _, _ => false
    end) l))%nat.
Proof.
  induction l as [|uv l IH]; intros s d; cbn [fold_left List.filter]; [simpl; split; lia|].
  destruct (homophily_step G (s, d) uv) as [s' d'] eqn:Hst.
  destruct (IH s' d') as [H1 H2]. cbv zeta in H1, H2 |- *. rewrite H1, H2.
  unfold homophily_step in Hst. simpl in Hst.
  destruct (node_color G uv.1) as [cu|], (node_color G uv.2) as [cv|];
    try (injection Hst as <- <-; split; lia).
  destruct (String.eqb cu cv); simpl; injection Hst as <- <-;
    rewrite length_app; simpl; split; lia.
Qed.

(** ** Claim C4 *)

(** C4: with fewer than two same-colour edges or fewer than two
    different-colour edges (edges with an uncoloured endpoint left out),
    [homophily] returns the error value ['not enough data'] (a value, not an
    exception); with at least two of each it returns the statistics of the
    two samples, which have those sizes. *)
Theorem homophily_not_enough_data {S : Type} (welch : list Z -> list Z -> S) (G : Graph) :
  ((same_label_edges G < 2)%nat \/ (diff_label_edges G < 2)%nat ->
   homophily welch G = HomError "not enough data") /\
  ((2 <= same_label_edges G)%nat -> (2 <= diff_label_edges G)%nat ->
   exists same diff, length same = same_label_edges G /\
     length diff = diff_label_edges G /\ homophily welch G = HomStats (welch same diff)).
Proof.
  destruct (homophily_fold G (edges G) [] []) as [H1 H2]. simpl in H1, H2.
  unfold homophily, same_label_edges, diff_label_edges. unfold homophily_groups.
  destruct (fold_left (homophily_step G) (edges G) ([], [])) as [same diff].
  simpl in H1, H2. rewrite <- H1, <- H2. split.
  - intros [Hs|Hd].
    + by apply Nat.ltb_lt in Hs as ->.
    + apply Nat.ltb_lt in Hd as ->. by rewrite orb_true_r.
  - intros Hs Hd. exists same, diff. split; [done|]. split; [done|].
    apply Nat.ltb_ge in Hs as ->. by apply Nat.ltb_ge in Hd as ->.
Qed.

Lemma homophily_not_enough_data_witness :
  (same_label_edges square < 2)%nat /\
  homophily (fun _ _ => tt) square = HomError "not enough data".
Proof.
  assert (H : (same_label_edges square < 2)%nat) by (apply Nat.ltb_lt; vm_compute; reflexivity).
  split; [exact H|].
  exact (proj1 (homophily_not_enough_data (fun _ _ => tt) square) (or_introl H)).
Defined.

Lemma balance_sign_defaults_witness :
  wf (triangle None None None) /\
  (forall u v a, In (v, a) (adj_of (triangle None None None) u) -> e_sign a = None) /\
  balance (triangle None None None) = true.
Proof.
  assert (Hwf : wf (triangle None None None)) by (apply wfb_sound; vm_compute; reflexivity).
  assert (Hns : forall u v a, In (v, a) (adj_of (triangle None None None) u) ->
            e_sign a = None).
  { intros u v a Hin. destruct (adj_of_entry _ _ _ _ Hin) as (e & He & _ & Hva).
    simpl in He. destruct He as [<-|[<-|[<-|[]]]]; simpl in Hva;
      destruct Hva as [Hva|[Hva|[]]]; injection Hva as _ <-; reflexivity. }
  split; [done|]. split; [done|].
  exact (proj2 (proj2 (balance_sign_defaults (triangle None None None))) Hwf Hns).
Defined.

(** ** Edge removal *)

Definition same_pair (u v a b : string) : bool :=
  (String.eqb u a && String.eqb v b) || (String.eqb u b && String.eqb v a).

Lemma adj_of_remove_edge a b (G : Graph) u :
  adj_of (remove_edge a b G) u =
  if has_edge G a b then List.filter (fun wa => negb (same_pair u wa.1 a b)) (adj_of G u)
  else adj_of G u.
Proof.
  unfold remove_edge. destruct (has_edge G a b); [|done].
  unfold adj_of. induction G as [|e G IH]; simpl; [done|].
  destruct (String.eqb_spec (n_id e) u) as [<-|]; [done|apply IH].
Qed.

Lemma has_edge_iff (G : Graph) u v :
  has_edge G u v = true <-> exists a, In (v, a) (adj_of G u).
Proof.
  unfold has_edge. rewrite existsb_exists. split.
  - intros ([w a] & Hin & Hw). apply String.eqb_eq in Hw. simpl in Hw. subst. by exists a.
  - intros [a Hin]. exists (v, a). split; [done|apply String.eqb_refl].
Qed.

Lemma same_pair_sym u v a b : same_pair v u a b = same_pair u v a b.
Proof.
  unfold same_pair.
  destruct (String.eqb u a), (String.eqb v b), (String.eqb u b), (String.eqb v a);
    reflexivity.
Qed.

Lemma same_pair_true u v a b : same_pair u v a b = true <-> sort_pair u v = sort_pair a b.
Proof.
  unfold same_pair. rewrite sort_pair_eq, orb_true_iff, !andb_true_iff, !String.eqb_eq.
  intuition.
Qed.

Lemma has_edge_remove_edge (G : Graph) a b u v :
  wf G ->
  has_edge (remove_edge a b G) u v = has_edge G u v && negb (same_pair u v a b).
Proof.
  intros Hwf. apply eq_true_iff_eq. rewrite andb_true_iff, negb_true_iff, !has_edge_iff.
  rewrite adj_of_remove_edge. destruct (has_edge G a b) eqn:Hab.
  - split.
    + intros [x Hx]. apply filter_In in Hx as [Hx Hn]. apply negb_true_iff in Hn.
      split; [by exists x|done].
    + intros [[x Hx] Hn]. exists x. apply filter_In. split; [done|]. simpl. by rewrite Hn.
  - split; [|by intros []]. intros Hx. split; [done|].
    destruct (same_pair u v a b) eqn:Hs; [|done]. exfalso.
    apply same_pair_true, sort_pair_eq in Hs as [[-> ->]|[-> ->]].
    + apply has_edge_iff in Hx. congruence.
    + destruct Hx as [x Hx]. apply (wf_sym G Hwf) in Hx.
      assert (has_edge G a b = true) by (apply has_edge_iff; by exists x). congruence.
Qed.

Lemma nodup_fst_filter (p : string * EAttr -> bool) : forall l,
  List.NoDup (map fst l) -> List.NoDup (map fst (List.filter p l)).
Proof.
  induction l as [|wa l IH]; simpl; intros Hnd; [constructor|].
  apply NoDup_cons_iff in Hnd as [Hn Hnd].
  destruct (p wa); simpl; [constructor|]; auto.
  intros Hin. apply Hn. apply in_map_iff in Hin as (x & <- & Hx).
  apply filter_In in Hx as [Hx _]. by apply in_map.
Qed.

Lemma remove_edge_wf (G : Graph) a b : wf G -> wf (remove_edge a b G).
Proof.
  intros Hwf.
  assert (Hn : nodes (remove_edge a b G) = nodes G).
  { unfold remove_edge. destruct (has_edge G a b); [|done].
    unfold nodes. by rewrite map_map. }
  assert (Hsub : forall u v x, In (v, x) (adj_of (remove_edge a b G) u) ->
            In (v, x) (adj_of G u) /\ (has_edge G a b = true -> same_pair u v a b = false)).
  { intros u v x. rewrite adj_of_remove_edge. destruct (has_edge G a b); [|done].
    intros Hin. apply filter_In in Hin as [Hin Hp]. apply negb_true_iff in Hp. done. }
  split.
  - rewrite Hn. apply Hwf.
  - unfold remove_edge. destruct (has_edge G a b); [|apply Hwf].
    intros e' He'. apply in_map_iff in He' as (e & <- & He). simpl.
    apply nodup_fst_filter. by apply (wf_adj_nodup G Hwf).
  - intros u v x Hin. rewrite Hn. apply (wf_closed G Hwf u v x). by apply Hsub.
  - intros u v x Hin. destruct (Hsub u v x Hin) as [Hin' Hp].
    rewrite adj_of_remove_edge. pose proof (wf_sym G Hwf u v x Hin') as Hs.
    destruct (has_edge G a b); [|done].
    apply filter_In. split; [done|]. simpl. rewrite same_pair_sym, Hp; done.
Qed.

Lemma remove_edges_from_wf : forall rem (G : Graph), wf G -> wf (remove_edges_from rem G).
Proof.
  unfold remove_edges_from. induction rem as [|uv rem IH]; intros G Hwf; simpl; [done|].
  apply IH. by apply remove_edge_wf.
Qed.

Lemma has_edge_remove_edges_from : forall rem (G : Graph) u v,
  wf G ->
  has_edge (remove_edges_from rem G) u v = true <->
  has_edge G u v = true /\ ~ In (sort_pair u v) (map (fun uv => sort_pair uv.1 uv.2) rem).
Proof.
  unfold remove_edges_from. induction rem as [|[a b] rem IH]; intros G u v Hwf; simpl.
  - tauto.
  - rewrite IH; [|by apply remove_edge_wf].
    rewrite has_edge_remove_edge, andb_true_iff, negb_true_iff; [|done].
    destruct (same_pair u v a b) eqn:Hs.
    + apply same_pair_true in Hs. split.
      * intros [[_ Hf] _]. discriminate Hf.
      * intros [_ Hn]. exfalso. apply Hn. left. by symmetry.
    + split.
      * intros [[H1 _] H2]. split; [done|]. intros [Heq|Hin]; [|done].
        assert (same_pair u v a b = true) by (by apply same_pair_true). congruence.
      * intros [H1 H2]. split; [done|]. intros Hin. apply H2. by right.
Qed.

(** ** [G.edges()] lists every edge once *)

Lemma edges_from_complete : forall G1 e G2 seen v,
  In v (map fst (n_adj e)) -> ~ In v seen -> ~ In v (nodes G1) ->
  In (n_id e, v) (edges_from seen (G1 ++ e :: G2)).
Proof.
  induction G1 as [|e1 G1 IH]; intros e G2 seen v Hv Hs Hn; simpl.
  - apply in_or_app. left. apply in_map. apply filter_In. split; [done|].
    apply negb_true_iff, not_true_iff_false. intros Hex.
    apply existsb_exists in Hex as (w & Hw & Heq). apply String.eqb_eq in Heq.
    subst w. done.
  - apply in_or_app. right. apply IH; [done| |].
    + intros [Heq|Hin]; [|done]. apply Hn. left. done.
    + intros Hin. apply Hn. by right.
Qed.

Lemma has_edge_in_edges (G : Graph) u v :
  wf G -> has_edge G u v = true -> In (u, v) (edges G) \/ In (v, u) (edges G).
Proof.
  intros Hwf Huv. apply has_edge_iff in Huv as [a Ha].
  pose proof (wf_sym G Hwf u v a Ha) as Hb.
  apply adj_of_entry in Ha as (e & He & <- & Ha).
  destruct (in_split e G He) as (G1 & G2 & HG).
  destruct (in_dec String.string_dec v (nodes G1)) as [Hv|Hv].
  - right. apply in_map_iff in Hv as (e' & <- & He').
    destruct (in_split e' G1 He') as (A & B & HA).
    rewrite (adj_of_first G e' (wf_nodup G Hwf)) in Hb;
      [|rewrite HG, HA; apply in_or_app; left; apply in_or_app; right; by left].
    assert (Hu : ~ In (n_id e) (nodes A)).
    { pose proof (wf_nodup G Hwf) as Hnd. rewrite HG in Hnd. unfold nodes in Hnd.
      rewrite map_app in Hnd. simpl in Hnd. apply NoDup_remove_2 in Hnd.
      intros Hin. apply Hnd. apply in_or_app. left. rewrite HA, map_app.
      apply in_or_app. by left. }
    unfold edges. rewrite HG, HA, <- app_assoc. simpl.
    apply edges_from_complete; [|intros []|exact Hu].
    apply in_map_iff. by exists (n_id e, a).
  - left. unfold edges. rewrite HG. apply edges_from_complete; [|intros []|exact Hv].
    apply in_map_iff. by exists (v, a).
Qed.

Lemma edges_keys (G : Graph) p :
  wf G ->
  In p (map (fun uv => sort_pair uv.1 uv.2) (edges G)) <->
  exists u v, p = sort_pair u v /\ has_edge G u v = true.
Proof.
  intros Hwf. split.
  - intros Hin. apply in_map_iff in Hin as ([x y] & <- & Hin). exists x, y. split; [done|].
    destruct (edges_from_in _ _ _ _ Hin) as [_ (e & He & <- & Hy)].
    apply in_map_iff in Hy as ([w a] & Hw & Hya). simpl in Hw. subst w.
    apply has_edge_iff. exists a. by rewrite (adj_of_first G e (wf_nodup G Hwf) He).
  - intros (u & v & -> & Huv).
    destruct (has_edge_in_edges G u v Hwf Huv) as [Hin|Hin].
    + by apply (in_map (fun uv => sort_pair uv.1 uv.2)) in Hin.
    + apply (in_map (fun uv => sort_pair uv.1 uv.2)) in Hin. simpl in Hin.
      by rewrite sort_pair_comm.
Qed.

Lemma number_of_edges_key_set (G : Graph) :
  wf G ->
  number_of_edges G =
  size (list_to_set (map (fun uv => sort_pair uv.1 uv.2) (edges G)) : gset (string * string)).
Proof.
  intros Hwf. unfold number_of_edges. rewrite size_list_to_set, length_map; [done|].
  apply NoDup_ListNoDup. by apply edges_nodup.
Qed.

Lemma number_of_edges_remove (G : Graph) rem :
  wf G -> incl rem (edges G) ->
  List.NoDup (map (fun uv => sort_pair uv.1 uv.2) rem) ->
  number_of_edges (remove_edges_from rem G) = (number_of_edges G - length rem)%nat.
Proof.
  intros Hwf Hincl Hnd.
  pose proof (remove_edges_from_wf rem G Hwf) as Hwf'.
  rewrite !number_of_edges_key_set by done.
  set (R := list_to_set (map (fun uv => sort_pair uv.1 uv.2) rem) : gset (string * string)).
  assert (HR : size R = length rem).
  { unfold R. rewrite size_list_to_set, length_map; [done|]. by apply NoDup_ListNoDup. }
  rewrite <- HR, <- size_difference.
  - f_equal. apply leibniz_equiv, set_equiv. intros p. unfold R.
    rewrite elem_of_difference, !elem_of_list_to_set, !list_elem_of_In.
    rewrite !edges_keys by done. split.
    + intros (u & v & -> & Huv). apply has_edge_remove_edges_from in Huv as [Huv Hn]; [|done].
      split; [by exists u, v|done].
    + intros [(u & v & -> & Huv) Hn]. exists u, v. split; [done|].
      apply has_edge_remove_edges_from; [done|]. split; [done|]. intros Hin. apply Hn.
      by apply list_elem_of_In.
  - intros p. unfold R. rewrite !elem_of_list_to_set, !list_elem_of_In.
    intros Hin. apply in_map_iff in Hin as (uv & <- & Hin). apply (in_map (fun uv => sort_pair uv.1 uv.2)). by apply Hincl.
Qed.

(** ** Sampling without replacement *)

Lemma nodup_positions {A} (l : list A) : forall idx smp,
  List.NoDup l -> List.NoDup idx -> map (nth_error l) idx = map Some smp ->
  List.NoDup smp /\ incl smp l /\ length smp = length idx.
Proof.
  induction idx as [|i idx IH]; intros smp Hl Hidx Hmap.
  - destruct smp; [|discriminate]. split; [constructor|]. split; [intros ? []|done].
  - destruct smp as [|x smp]; [discriminate|]. simpl in Hmap. injection Hmap as Hx Hmap.
    apply NoDup_cons_iff in Hidx as [Hi Hidx].
    destruct (IH smp Hl Hidx Hmap) as (Hnd & Hincl & Hlen).
    split; [|split].
    + constructor; [|done]. intros Hin.
      assert (Hj : In (Some x) (map (nth_error l) idx)) by (rewrite Hmap; by apply in_map).
      apply in_map_iff in Hj as (j & Hj & Hjin).
      assert (i = j) as <-; [|done].
      apply (proj1 (NoDup_nth_error l) Hl); [|congruence].
      apply nth_error_Some. by rewrite Hx.
    + intros y [<-|Hy]; [|by apply Hincl]. by apply nth_error_In with i.
    + simpl. by rewrite Hlen.
Qed.

Lemma sample_spec (lib : NxLib) r (pop : list edge_t) k :
  sample_contract lib -> (k <= length pop)%nat ->
  List.NoDup (map (fun uv => sort_pair uv.1 uv.2) pop) ->
  let smp := (sample lib r pop k).1 in
  List.NoDup (map (fun uv => sort_pair uv.1 uv.2) smp) /\ incl smp pop /\ length smp = k.
Proof.
  intros Hs Hk Hnd smp. destruct (Hs r pop k Hk) as (idx & Hidx & Hlen & Hmap).
  fold smp in Hmap.
  assert (Hmap' : map (nth_error pop) idx = map Some smp) by exact Hmap.
  assert (Hpop : List.NoDup pop).
  { eapply NoDup_map_inv. exact Hnd. }
  destruct (nodup_positions pop idx smp Hpop Hidx Hmap') as (_ & Hincl & Hl).
  split; [|split; [done|lia]].
  apply (nodup_positions (map (fun uv => sort_pair uv.1 uv.2) pop) idx); [done|done|].
  rewrite map_map. erewrite map_ext; [|intros; apply nth_error_map].
  rewrite <- map_map, Hmap', !map_map. done.
Qed.

(** ** Running the heap programs *)

Lemma mbind_run {A B} (m : M A) (k : A -> M B) s a s' :
  m s = Some (a, s') -> mbind m k s = k a s'.
Proof. unfold mbind. by intros ->. Qed.

Lemma get_graph_run g s G : heap s !! g = Some G -> get_graph g s = Some (G, s).
Proof. unfold get_graph. by intros ->. Qed.

Lemma copy_run g s G :
  heap s !! g = Some G ->
  copy g s = Some (next_id s, mkState (<[next_id s:=G]> (heap s)) (S (next_id s)) (rng s)).
Proof. intros Hg. unfold copy. by rewrite (mbind_run _ _ _ _ _ (get_graph_run g s G Hg)). Qed.

Lemma random_sample_run lib pop k s :
  (0 <= k)%Z -> (k <= Z.of_nat (length pop))%Z ->
  random_sample lib pop k s =
  Some ((sample lib (rng s) pop (Z.to_nat k)).1,
        mkState (heap s) (next_id s) (sample lib (rng s) pop (Z.to_nat k)).2).
Proof.
  intros H0 H1. unfold random_sample.
  replace (Z.ltb k 0 || Z.ltb (Z.of_nat (length pop)) k) with false
    by (symmetry; apply orb_false_iff; split; apply Z.ltb_ge; lia).
  by destruct (sample lib (rng s) pop (Z.to_nat k)).
Qed.

Lemma remove_edges_obj_run h rem s H :
  heap s !! h = Some H ->
  remove_edges_obj h rem s =
  Some (tt, mkState (<[h:=remove_edges_from rem H]> (heap s)) (next_id s) (rng s)).
Proof. intros Hh. unfold remove_edges_obj. by rewrite (mbind_run _ _ _ _ _ (get_graph_run h s H Hh)). Qed.

Lemma stats_obj_run lib h s H :
  heap s !! h = Some H -> stats_obj lib h s = Some (stats lib H, s).
Proof. intros Hh. unfold stats_obj. by rewrite (mbind_run _ _ _ _ _ (get_graph_run h s H Hh)). Qed.

Lemma heap_ok_alloc s G :
  heap_ok s -> heap_ok (mkState (<[next_id s:=G]> (heap s)) (S (next_id s)) (rng s)).
Proof.
  intros Hok i Hi. simpl in *. apply lookup_insert_is_Some' in Hi as [<-|Hi]; [lia|].
  specialize (Hok i Hi). lia.
Qed.

Lemma heap_ok_update s h G :
  heap_ok s -> is_Some (heap s !! h) ->
  heap_ok (mkState (<[h:=G]> (heap s)) (next_id s) (rng s)).
Proof.
  intros Hok Hh i Hi. simpl in *. apply lookup_insert_is_Some' in Hi as [<-|Hi]; by apply Hok.
Qed.

Lemma heap_ok_fresh s g : heap_ok s -> is_Some (heap s !! g) -> g <> next_id s.
Proof. intros Hok Hg ->. specialize (Hok _ Hg). lia. Qed.

Lemma mbind_none {A B} (m : M A) (k : A -> M B) s :
  m s = None -> mbind m k s = None.
Proof. unfold mbind. by intros ->. Qed.

Lemma random_sample_state lib pop k s x s' :
  random_sample lib pop k s = Some (x, s') -> heap s' = heap s /\ next_id s' = next_id s.
Proof.
  unfold random_sample. destruct (Z.ltb k 0 || Z.ltb (Z.of_nat (length pop)) k); [done|].
  destruct (sample lib (rng s) pop (Z.to_nat k)). intros [= _ <-]. done.
Qed.

Lemma remove_edges_from_nodes : forall rem (G : Graph),
  nodes (remove_edges_from rem G) = nodes G.
Proof.
  unfold remove_edges_from. induction rem as [|[a b] rem IH]; intros G; simpl; [done|].
  rewrite IH. unfold remove_edge. destruct (has_edge G a b); [|done].
  unfold nodes. by rewrite map_map.
Qed.

Lemma mean_nonneg res : (0 <= mean res)%Q.
Proof.
  destruct res as [|c res]; simpl; [apply Qle_refl|].
  apply Qle_shift_div_l.
  - unfold Qlt. simpl. lia.
  - rewrite Qmult_0_l. unfold Qle. simpl. lia.
Qed.

Section Trials.
Variable lib : NxLib.
Variable g : nat.

(** The loop of [robustness] only writes to the copies it allocates. *)
Lemma robustness_trials_frame k : forall n res s r s',
  heap_ok s -> robustness_trials lib g k n res s = Some (r, s') ->
  heap_ok s' /\ heap s' !! g = heap s !! g.
Proof.
  induction n as [|n IH]; intros res s r s' Hok Hrun; cbn [robustness_trials] in Hrun.
  - injection Hrun as _ <-. done.
  - destruct (heap s !! g) as [G|] eqn:Hg.
    2:{ rewrite mbind_none in Hrun; [done|]. unfold copy, mbind, get_graph. by rewrite Hg. }
    rewrite (mbind_run _ _ _ _ _ (copy_run g s G Hg)) in Hrun. cbv beta in Hrun.
    set (s1 := mkState (<[next_id s:=G]> (heap s)) (S (next_id s)) (rng s)) in Hrun.
    assert (Hh1 : heap s1 !! next_id s = Some G) by apply lookup_insert_eq.
    assert (Hg1 : heap s1 !! g = Some G).
    { simpl. rewrite lookup_insert_ne; [done|]. apply not_eq_sym, heap_ok_fresh; [done|by exists G]. }
    rewrite (mbind_run _ _ _ _ _ (get_graph_run _ s1 G Hh1)) in Hrun. cbv beta in Hrun.
    destruct (random_sample lib (edges G) (Z.min k (Z.of_nat (number_of_edges G))) s1)
      as [[smp s2]|] eqn:E3.
    2:{ by rewrite mbind_none in Hrun. }
    rewrite (mbind_run _ _ _ _ _ E3) in Hrun. cbv beta in Hrun.
    destruct (random_sample_state _ _ _ _ _ _ E3) as [Hh2 Hn2].
    assert (Hh2' : heap s2 !! next_id s = Some G) by (by rewrite Hh2).
    rewrite (mbind_run _ _ _ _ _ (remove_edges_obj_run _ smp s2 G Hh2')) in Hrun. cbv beta in Hrun.
    set (s3 := mkState (<[next_id s:=remove_edges_from smp G]> (heap s2)) (next_id s2) (rng s2))
      in Hrun.
    assert (Hh3 : heap s3 !! next_id s = Some (remove_edges_from smp G)) by apply lookup_insert_eq.
    rewrite (mbind_run _ _ _ _ _ (stats_obj_run lib _ s3 _ Hh3)) in Hrun. cbv beta in Hrun.
    assert (Hok3 : heap_ok s3).
    { apply heap_ok_update; [|by rewrite Hh2].
      intros i Hi. rewrite Hn2. rewrite Hh2 in Hi. by apply heap_ok_alloc. }
    destruct (IH _ s3 r s' Hok3 Hrun) as [Hok' Hg'].
    split; [done|]. rewrite Hg'. simpl. rewrite lookup_insert_ne, Hh2; [done|].
    apply not_eq_sym, heap_ok_fresh; [done|by exists G].
Qed.

Hypothesis Hs : sample_contract lib.
Variable G : Graph.
Hypothesis Hwf : wf G.
Variable k : Z.
Hypothesis Hk : (0 <= k)%Z.

(** Every trial counts the components of [G] less [min(k, |E|)] of its
    edges, all distinct. *)
Lemma robustness_trials_run : forall n res s,
  heap_ok s -> heap s !! g = Some G ->
  exists res' s', robustness_trials lib g k n res s = Some (res ++ res', s') /\
    heap_ok s' /\ heap s' !! g = Some G /\ length res' = n /\
    Forall (fun c => exists rem, incl rem (edges G) /\
              List.NoDup (map (fun uv => sort_pair uv.1 uv.2) rem) /\
              length rem = Z.to_nat (Z.min k (Z.of_nat (number_of_edges G))) /\
              c = st_n (stats lib (remove_edges_from rem G))) res'.
Proof.
  induction n as [|n IH]; intros res s Hok Hg; cbn [robustness_trials].
  - exists [], s. rewrite app_nil_r. done.
  - rewrite (mbind_run _ _ _ _ _ (copy_run g s G Hg)). cbv beta.
    set (s1 := mkState (<[next_id s:=G]> (heap s)) (S (next_id s)) (rng s)).
    assert (Hfresh : g <> next_id s) by (apply heap_ok_fresh; [done|by exists G]).
    assert (Hh1 : heap s1 !! next_id s = Some G) by apply lookup_insert_eq.
    rewrite (mbind_run _ _ _ _ _ (get_graph_run _ s1 G Hh1)). cbv beta.
    set (kk := Z.min k (Z.of_nat (number_of_edges G))).
    assert (Hkk : (0 <= kk <= Z.of_nat (length (edges G)))%Z)
      by (unfold kk, number_of_edges; lia).
    rewrite (mbind_run _ _ _ _ _ (random_sample_run lib (edges G) kk s1 (proj1 Hkk) (proj2 Hkk))).
    cbv beta.
    set (smp := (sample lib (rng s1) (edges G) (Z.to_nat kk)).1).
    set (s2 := mkState (heap s1) (next_id s1) (sample lib (rng s1) (edges G) (Z.to_nat kk)).2).
    assert (Hh2 : heap s2 !! next_id s = Some G) by exact Hh1.
    rewrite (mbind_run _ _ _ _ _ (remove_edges_obj_run _ smp s2 G Hh2)). cbv beta.
    set (s3 := mkState (<[next_id s:=remove_edges_from smp G]> (heap s2)) (next_id s2) (rng s2)).
    assert (Hh3 : heap s3 !! next_id s = Some (remove_edges_from smp G)) by apply lookup_insert_eq.
    rewrite (mbind_run _ _ _ _ _ (stats_obj_run lib _ s3 _ Hh3)). cbv beta.
    assert (Hok3 : heap_ok s3).
    { apply heap_ok_update; [|by exists G]. by apply heap_ok_alloc. }
    assert (Hg3 : heap s3 !! g = Some G).
    { simpl. rewrite !lookup_insert_ne; [done|done|done]. }
    destruct (IH (res ++ [st_n (stats lib (remove_edges_from smp G))]) s3 Hok3 Hg3)
      as (res' & s' & Hrun & Hok' & Hg' & Hlen & Hall).
    exists (st_n (stats lib (remove_edges_from smp G)) :: res'), s'.
    rewrite <- app_assoc in Hrun. split; [done|]. split; [done|]. split; [done|].
    split; [simpl; by rewrite Hlen|]. constructor; [|done].
    assert (Hle : (Z.to_nat kk <= length (edges G))%nat).
    { apply Nat2Z.inj_le. rewrite Z2Nat.id; apply Hkk. }
    destruct (sample_spec lib (rng s1) (edges G) (Z.to_nat kk) Hs Hle (edges_nodup G Hwf))
      as (Hnd & Hincl & Hl).
    exists smp. done.
Qed.
End Trials.

Lemma lib_ex_contract : sample_contract lib_ex.
Proof.
  intros r pop k Hk. exists (seq 0 k). split; [apply seq_NoDup|]. split; [apply length_seq|].
  simpl. revert k Hk. induction pop as [|x pop IH]; intros [|k] Hk; simpl in *; try done; [lia|].
  f_equal. rewrite <- seq_shift, map_map. apply IH. lia.
Qed.

Lemma heap_ok_state_ex G : heap_ok (state_ex G).
Proof.
  intros i Hi. simpl in *. destruct Hi as [x Hi].
  apply lookup_singleton_Some in Hi as [<- _]. lia.
Qed.

(** The run of [simulate_failures] on a graph held at [g]. *)
Lemma simulate_failures_run lib g G k s :
  sample_contract lib -> (0 <= k)%Z -> wf G -> heap_ok s -> heap s !! g = Some G ->
  exists rem s', simulate_failures lib g k s =
      Some ((stats lib G, stats lib (remove_edges_from rem G)), s') /\
    heap_ok s' /\ heap s' !! g = Some G /\
    incl rem (edges G) /\ List.NoDup (map (fun uv => sort_pair uv.1 uv.2) rem) /\
    length rem = Z.to_nat (Z.min k (Z.of_nat (number_of_edges G))).
Proof.
  intros Hs Hk Hwf Hok Hg. unfold simulate_failures.
  rewrite (mbind_run _ _ _ _ _ (stats_obj_run lib g s G Hg)). cbv beta.
  rewrite (mbind_run _ _ _ _ _ (copy_run g s G Hg)). cbv beta.
  set (s1 := mkState (<[next_id s:=G]> (heap s)) (S (next_id s)) (rng s)).
  assert (Hfresh : g <> next_id s) by (apply heap_ok_fresh; [done|by exists G]).
  assert (Hg1 : heap s1 !! g = Some G) by (simpl; by rewrite lookup_insert_ne).
  rewrite (mbind_run _ _ _ _ _ (get_graph_run _ s1 G Hg1)). cbv beta.
  set (kk := Z.min k (Z.of_nat (length (edges G)))).
  assert (Hkk : (0 <= kk <= Z.of_nat (length (edges G)))%Z) by (unfold kk; lia).
  rewrite (mbind_run _ _ _ _ _ (random_sample_run lib (edges G) kk s1 (proj1 Hkk) (proj2 Hkk))).
  cbv beta.
  set (smp := (sample lib (rng s1) (edges G) (Z.to_nat kk)).1).
  set (s2 := mkState (heap s1) (next_id s1) (sample lib (rng s1) (edges G) (Z.to_nat kk)).2).
  assert (Hh2 : heap s2 !! next_id s = Some G) by apply lookup_insert_eq.
  rewrite (mbind_run _ _ _ _ _ (remove_edges_obj_run _ smp s2 G Hh2)). cbv beta.
  set (s3 := mkState (<[next_id s:=remove_edges_from smp G]> (heap s2)) (next_id s2) (rng s2)).
  assert (Hh3 : heap s3 !! next_id s = Some (remove_edges_from smp G)) by apply lookup_insert_eq.
  rewrite (mbind_run _ _ _ _ _ (stats_obj_run lib _ s3 _ Hh3)). cbv beta.
  assert (Hle : (Z.to_nat kk <= length (edges G))%nat).
  { apply Nat2Z.inj_le. rewrite Z2Nat.id; apply Hkk. }
  destruct (sample_spec lib (rng s1) (edges G) (Z.to_nat kk) Hs Hle (edges_nodup G Hwf))
    as (Hnd & Hincl & Hl).
  exists smp, s3. split; [done|]. split.
  { apply heap_ok_update; [|by exists G]. by apply heap_ok_alloc. }
  split; [simpl; by rewrite !lookup_insert_ne|]. done.
Qed.

Lemma simulate_failures_frame lib g k s r s' :
  heap_ok s -> simulate_failures lib g k s = Some (r, s') -> heap s' !! g = heap s !! g.
Proof.
  intros Hok Hrun. unfold simulate_failures in Hrun.
  destruct (heap s !! g) as [G|] eqn:Hg.
  2:{ rewrite mbind_none in Hrun; [done|]. unfold stats_obj, mbind, get_graph. by rewrite Hg. }
  rewrite (mbind_run _ _ _ _ _ (stats_obj_run lib g s G Hg)) in Hrun. cbv beta in Hrun.
  rewrite (mbind_run _ _ _ _ _ (copy_run g s G Hg)) in Hrun. cbv beta in Hrun.
  set (s1 := mkState (<[next_id s:=G]> (heap s)) (S (next_id s)) (rng s)) in Hrun.
  assert (Hfresh : g <> next_id s) by (apply heap_ok_fresh; [done|by exists G]).
  assert (Hg1 : heap s1 !! g = Some G) by (simpl; by rewrite lookup_insert_ne).
  rewrite (mbind_run _ _ _ _ _ (get_graph_run _ s1 G Hg1)) in Hrun. cbv beta in Hrun.
  destruct (random_sample lib (edges G) (Z.min k (Z.of_nat (length (edges G)))) s1)
    as [[smp s2]|] eqn:E3.
  2:{ by rewrite mbind_none in Hrun. }
  rewrite (mbind_run _ _ _ _ _ E3) in Hrun. cbv beta in Hrun.
  destruct (random_sample_state _ _ _ _ _ _ E3) as [Hh2 Hn2].
  assert (Hh2' : heap s2 !! next_id s = Some G) by (rewrite Hh2; apply lookup_insert_eq).
  rewrite (mbind_run _ _ _ _ _ (remove_edges_obj_run _ smp s2 G Hh2')) in Hrun. cbv beta in Hrun.
  set (s3 := mkState (<[next_id s:=remove_edges_from smp G]> (heap s2)) (next_id s2) (rng s2))
    in Hrun.
  assert (Hh3 : heap s3 !! next_id s = Some (remove_edges_from smp G)) by apply lookup_insert_eq.
  rewrite (mbind_run _ _ _ _ _ (stats_obj_run lib _ s3 _ Hh3)) in Hrun.
  unfold mret in Hrun. injection Hrun as _ <-.
  simpl. rewrite lookup_insert_ne, Hh2; [|done]. done.
Qed.

(** ** C5: [robustness] *)

(** C5. For [k >= 0], [robustness(G, k, trials)] runs [trials] trials
    (none when [trials <= 0]) and returns the exact mean of their component
    counts; each count is the number of components of [G] less [min(k, |E|)]
    distinct edges of [G]; the mean is non-negative, and it is 0 when
    [trials <= 0]. [random.sample] is any sampler drawing distinct
    positions. *)
Theorem robustness_mean_nonneg lib g G k trials s
  (Hs : sample_contract lib) (Hk : (0 <= k)%Z) (Hwf : wf G)
  (Hok : heap_ok s) (Hg : heap s !! g = Some G) :
  exists res s', robustness lib g k trials s = Some (mean res, s') /\
    length res = Z.to_nat trials /\
    Forall (fun c => exists rem, incl rem (edges G) /\
              List.NoDup (map (fun uv => sort_pair uv.1 uv.2) rem) /\
              length rem = Z.to_nat (Z.min k (Z.of_nat (number_of_edges G))) /\
              c = st_n (stats lib (remove_edges_from rem G))) res /\
    (0 <= mean res)%Q /\
    ((trials <= 0)%Z -> mean res = 0%Q).
Proof.
  destruct (robustness_trials_run lib g Hs G Hwf k Hk (Z.to_nat trials) [] s Hok Hg)
    as (res & s' & Hrun & _ & _ & Hlen & Hall).
  exists res, s'. unfold robustness. rewrite (mbind_run _ _ _ _ _ Hrun).
  split; [done|]. split; [done|]. split; [done|]. split; [apply mean_nonneg|].
  intros Ht. assert (res = []) as -> by (apply length_zero_iff_nil; lia). done.
Qed.

Lemma robustness_mean_nonneg_witness :
  sample_contract lib_ex /\ (0 <= 2)%Z /\ wf square /\ heap_ok (state_ex square) /\
  heap (state_ex square) !! 0%nat = Some square /\
  exists res s', robustness lib_ex 0 2 3 (state_ex square) = Some (mean res, s') /\
    length res = 3%nat /\ (0 <= mean res)%Q.
Proof.
  assert (Hwf : wf square) by (apply wfb_sound; vm_compute; reflexivity).
  assert (Hg : heap (state_ex square) !! 0%nat = Some square) by reflexivity.
  split; [exact lib_ex_contract|]. split; [lia|]. split; [exact Hwf|].
  split; [apply heap_ok_state_ex|]. split; [exact Hg|].
  destruct (robustness_mean_nonneg lib_ex 0 square 2 3 (state_ex square) lib_ex_contract
              ltac:(lia) Hwf (heap_ok_state_ex square) Hg)
    as (res & s' & Hrun & Hlen & _ & Hpos & _).
  exists res, s'. split; [exact Hrun|]. split; [exact Hlen|exact Hpos].
Defined.

(** ** C6: [simulate_failures] *)

(** C6. For [k >= 0], [simulate_failures(G, k)] never fails: it returns
    [(stats(G), stats(H))] where [H] is [G] less a list [rem] of
    [min(k, |E|)] edges of [G], distinct as unordered pairs; [H] keeps the
    nodes of [G], has exactly [|E| - min(k, |E|)] edges, and its edges are
    those of [G] not in [rem]. *)
Theorem simulate_failures_removes_min_k lib g G k s
  (Hs : sample_contract lib) (Hk : (0 <= k)%Z) (Hwf : wf G)
  (Hok : heap_ok s) (Hg : heap s !! g = Some G) :
  exists rem s', simulate_failures lib g k s =
      Some ((stats lib G, stats lib (remove_edges_from rem G)), s') /\
    length rem = Z.to_nat (Z.min k (Z.of_nat (number_of_edges G))) /\
    incl rem (edges G) /\
    List.NoDup (map (fun uv => sort_pair uv.1 uv.2) rem) /\
    nodes (remove_edges_from rem G) = nodes G /\
    number_of_edges (remove_edges_from rem G) = (number_of_edges G - length rem)%nat /\
    (forall u v, has_edge (remove_edges_from rem G) u v = true <->
       has_edge G u v = true /\ ~ In (sort_pair u v) (map (fun uv => sort_pair uv.1 uv.2) rem)).
Proof.
  destruct (simulate_failures_run lib g G k s Hs Hk Hwf Hok Hg)
    as (rem & s' & Hrun & _ & _ & Hincl & Hnd & Hlen).
  exists rem, s'. split; [done|]. split; [done|]. split; [done|]. split; [done|].
  split; [apply remove_edges_from_nodes|]. split; [by apply number_of_edges_remove|].
  intros u v. by apply has_edge_remove_edges_from.
Qed.

Lemma simulate_failures_removes_min_k_witness :
  sample_contract lib_ex /\ (0 <= 10)%Z /\ wf square /\ heap_ok (state_ex square) /\
  heap (state_ex square) !! 0%nat = Some square /\
  exists rem s', simulate_failures lib_ex 0 10 (state_ex square) =
      Some ((stats lib_ex square, stats lib_ex (remove_edges_from rem square)), s') /\
    length rem = 5%nat /\ number_of_edges (remove_edges_from rem square) = 0%nat.
Proof.
  assert (Hwf : wf square) by (apply wfb_sound; vm_compute; reflexivity).
  assert (Hg : heap (state_ex square) !! 0%nat = Some square) by reflexivity.
  split; [exact lib_ex_contract|]. split; [lia|]. split; [exact Hwf|].
  split; [apply heap_ok_state_ex|]. split; [exact Hg|].
  destruct (simulate_failures_removes_min_k lib_ex 0 square 10 (state_ex square)
              lib_ex_contract ltac:(lia) Hwf (heap_ok_state_ex square) Hg)
    as (rem & s' & Hrun & Hlen & _ & _ & _ & Hne & _).
  exists rem, s'. split; [exact Hrun|].
  assert (H5 : number_of_edges square = 5%nat) by reflexivity.
  rewrite H5 in Hlen. simpl in Hlen. split; [exact Hlen|]. rewrite Hne, H5, Hlen. reflexivity.
Defined.

(** ** C9: the input graph is left unchanged *)

(** C9. From a well-formed heap, a successful [simulate_failures(G, k)] or
    [robustness(G, k, trials)] leaves the object [G] as it was: all edge
    removals go to fresh copies. *)
Theorem failures_leave_input_unchanged lib g k trials s (Hok : heap_ok s) :
  (forall r s', simulate_failures lib g k s = Some (r, s') -> heap s' !! g = heap s !! g) /\
  (forall r s', robustness lib g k trials s = Some (r, s') -> heap s' !! g = heap s !! g).
Proof.
  split.
  - intros r s' Hrun. by apply (simulate_failures_frame lib g k s r).
  - intros r s' Hrun. unfold robustness, mbind in Hrun.
    destruct (robustness_trials lib g k (Z.to_nat trials) [] s) as [[res s1]|] eqn:E; [|done].
    unfold mret in Hrun. injection Hrun as _ <-.
    by apply (robustness_trials_frame lib g k (Z.to_nat trials) [] s res s1).
Qed.

Lemma failures_leave_input_unchanged_witness :
  heap_ok (state_ex square) /\
  (forall r s', simulate_failures lib_ex 0 2 (state_ex square) = Some (r, s') ->
     heap s' !! 0%nat = Some square) /\
  (forall r s', robustness lib_ex 0 2 3 (state_ex square) = Some (r, s') ->
     heap s' !! 0%nat = Some square).
Proof.
  destruct (failures_leave_input_unchanged lib_ex 0 2 3 (state_ex square)
              (heap_ok_state_ex square)) as [H1 H2].
  split; [apply heap_ok_state_ex|]. split.
  - intros r s' Hr. rewrite (H1 r s' Hr). reflexivity.
  - intros r s' Hr. rewrite (H2 r s' Hr). reflexivity.
Defined.

(** ** [sorted] on events *)

Lemma cmp_then_total c k k' :
  cmp_then c k = false -> (k = false -> k' = true) -> cmp_then (CompOpp c) k' = true.
Proof. destruct c; simpl; auto; discriminate. Qed.

Lemma event_leb_total x y : event_leb x y = false -> event_leb y x = true.
Proof.
  destruct x as [[[t1 s1] d1] a1], y as [[[t2 s2] d2] a2]. simpl. intros H.
  rewrite <- (Qcompare_antisym t1 t2), (String.compare_antisym s2 s1), (String.compare_antisym d2 d1),
    (String.compare_antisym a2 a1).
  apply (cmp_then_total _ _ _ H). intros H1.
  apply (cmp_then_total _ _ _ H1). intros H2.
  apply (cmp_then_total _ _ _ H2). intros H3.
  apply (cmp_then_total _ _ _ H3). discriminate.
Qed.

Lemma event_leb_time x y : event_leb x y = true -> (ev_time x <= ev_time y)%Q.
Proof.
  destruct x as [[[t1 s1] d1] a1], y as [[[t2 s2] d2] a2]. unfold ev_time. simpl.
  intros H. apply Qle_alt. intros Hc. rewrite Hc in H. discriminate.
Qed.

Lemma ev_insert_perm x l : Permutation (ev_insert x l) (x :: l).
Proof.
  induction l as [|y l IH]; simpl; [done|].
  destruct (event_leb x y); [done|].
  rewrite IH. apply perm_swap.
Qed.

Lemma ev_sort_perm l : Permutation (ev_sort l) l.
Proof.
  induction l as [|x l IH]; simpl; [done|]. rewrite ev_insert_perm. by apply perm_skip.
Qed.

Lemma ev_insert_sorted x l :
  Sorted (fun a b => event_leb a b = true) l ->
  Sorted (fun a b => event_leb a b = true) (ev_insert x l).
Proof.
  induction l as [|y l IH]; intros Hs; simpl; [by repeat constructor|].
  destruct (event_leb x y) eqn:Hxy; [by constructor; [|constructor]|].
  apply Sorted_inv in Hs as [Hs Hhd]. constructor; [by apply IH|].
  apply event_leb_total in Hxy.
  destruct l as [|z l]; simpl; [by constructor|].
  destruct (event_leb x z); constructor; [done|]. by inversion Hhd.
Qed.

Lemma ev_sort_sorted l : Sorted (fun a b => event_leb a b = true) (ev_sort l).
Proof. induction l as [|x l IH]; simpl; [constructor|]. by apply ev_insert_sorted. Qed.

Lemma sorted_weaken {A} (R R' : A -> A -> Prop) l :
  (forall a b, R a b -> R' a b) -> Sorted R l -> Sorted R' l.
Proof.
  intros HR. induction 1 as [|a l Hs IH Hhd]; constructor; [done|].
  destruct Hhd; constructor. by apply HR.
Qed.

(** ** The loop of [temporal] *)

Lemma temporal_loop : forall (ev : list event) G0 acc,
  fold_left (fun acc x => let G1 := temporal_step acc.1 x in (G1, acc.2 ++ [G1])) ev (G0, acc) =
  (fold_left temporal_step ev G0,
   acc ++ map (fun i => fold_left temporal_step (firstn (S i) ev) G0) (seq 0 (length ev))).
Proof.
  induction ev as [|x ev IH]; intros G0 acc; simpl; [by rewrite app_nil_r|].
  rewrite IH, <- app_assoc. f_equal. f_equal. simpl. f_equal.
  rewrite <- seq_shift, map_map. reflexivity.
Qed.

(** ** What one event does to the edge *)

Lemma adj_of_set_adj u v d (G : Graph) w :
  adj_of (set_adj u v d G) w =
  match find (fun e => String.eqb (n_id e) w) G with
  | Some e =>
      if String.eqb (n_id e) u then
        (if existsb (fun wa => String.eqb wa.1 v) (n_adj e)
         then map (fun wa => if String.eqb wa.1 v then (v, d) else wa) (n_adj e)
         else n_adj e ++ [(v, d)])
      else n_adj e
  | None => []
  end.
Proof.
  unfold adj_of, set_adj. induction G as [|e G IH]; simpl; [done|].
  destruct (String.eqb (n_id e) u) eqn:Hu; simpl;
    destruct (String.eqb (n_id e) w); rewrite ?Hu; try done.
Qed.

Lemma existsb_key_map v d y l :
  existsb (fun wa : string * EAttr => String.eqb wa.1 y) l = true ->
  existsb (fun wa : string * EAttr => String.eqb wa.1 y)
    (map (fun wa => if String.eqb wa.1 v then (v, d) else wa) l) = true.
Proof.
  intros H. apply existsb_exists in H as (wa & Hin & Hy). apply String.eqb_eq in Hy.
  apply existsb_exists. exists (if String.eqb wa.1 v then (v, d) else wa).
  split; [by apply (in_map (fun wa : string * EAttr => if String.eqb wa.1 v then (v, d) else wa))|]. apply String.eqb_eq.
  destruct (String.eqb_spec wa.1 v); simpl; congruence.
Qed.

Lemma has_edge_set_adj_keep u v d (G : Graph) x y :
  has_edge G x y = true -> has_edge (set_adj u v d G) x y = true.
Proof.
  unfold has_edge. rewrite adj_of_set_adj. unfold adj_of.
  destruct (find _ G) as [e|]; [|done]. intros H.
  destruct (String.eqb (n_id e) u); [|done].
  destruct (existsb (fun wa : string * EAttr => String.eqb wa.1 v) (n_adj e));
    [by apply existsb_key_map|].
  rewrite existsb_app, H. done.
Qed.

Lemma has_edge_set_adj_new u v d (G : Graph) :
  In u (nodes G) -> has_edge (set_adj u v d G) u v = true.
Proof.
  intros Hu. unfold has_edge. rewrite adj_of_set_adj.
  destruct (find (fun e => String.eqb (n_id e) u) G) as [e|] eqn:Hf.
  - apply find_some in Hf as [_ Heq]. rewrite Heq.
    destruct (existsb (fun wa : string * EAttr => String.eqb wa.1 v) (n_adj e)) eqn:Hv;
      [by apply existsb_key_map|].
    rewrite existsb_app. simpl. rewrite String.eqb_refl, orb_true_r. done.
  - exfalso. unfold nodes in Hu. apply in_map_iff in Hu as (e & <- & He).
    apply (find_none _ _ Hf) in He. by rewrite String.eqb_refl in He.
Qed.

Lemma add_node_nodes u (G : Graph) w : In w (nodes G) -> In w (nodes (add_node u G)).
Proof.
  unfold add_node, add_node_attr. destruct (existsb _ (nodes G)).
  - unfold nodes. rewrite map_map. intros H. erewrite map_ext; [exact H|].
    intros e. by destruct (String.eqb (n_id e) u).
  - unfold nodes. rewrite map_app. intros H. apply in_or_app. by left.
Qed.

Lemma add_node_self u (G : Graph) : In u (nodes (add_node u G)).
Proof.
  unfold add_node, add_node_attr. destruct (existsb (String.eqb u) (nodes G)) eqn:Hu.
  - apply existsb_exists in Hu as (w & Hw & Heq). apply String.eqb_eq in Heq. subst w.
    unfold nodes in *. rewrite map_map. erewrite map_ext; [exact Hw|].
    intros e. by destruct (String.eqb (n_id e) u).
  - unfold nodes. rewrite map_app. apply in_or_app. right. by left.
Qed.

Lemma has_edge_add_edge u v (G : Graph) : has_edge (add_edge u v G) u v = true.
Proof.
  unfold add_edge, add_edge_attr. apply has_edge_set_adj_keep, has_edge_set_adj_new.
  apply add_node_nodes, add_node_self.
Qed.

Lemma has_edge_remove_self u v (G : Graph) : has_edge (remove_edge u v G) u v = false.
Proof.
  unfold has_edge. rewrite adj_of_remove_edge.
  destruct (has_edge G u v) eqn:Huv; [|exact Huv].
  apply not_true_iff_false. intros H. apply existsb_exists in H as (wa & Hin & Hv).
  apply filter_In in Hin as [_ Hn]. apply String.eqb_eq in Hv. rewrite Hv in Hn.
  unfold same_pair in Hn. rewrite !String.eqb_refl in Hn. discriminate.
Qed.

Lemma temporal_step_add (G : Graph) t u v :
  has_edge (temporal_step G (t, u, v, "add"%string)) u v = true.
Proof. simpl. apply has_edge_add_edge. Qed.

Lemma temporal_step_remove (G : Graph) t u v :
  has_edge (temporal_step G (t, u, v, "remove"%string)) u v = false.
Proof.
  simpl. destruct (has_edge G u v) eqn:H; [apply has_edge_remove_self|exact H].
Qed.

Lemma firstn_snoc {A} : forall (l : list A) i x,
  nth_error l i = Some x -> firstn (S i) l = firstn i l ++ [x].
Proof.
  induction l as [|y l IH]; intros [|i] x H; simpl in *; try discriminate.
  - by injection H as ->.
  - f_equal. by apply IH.
Qed.

(** ** C7: [parse_csv] and [temporal] *)

(** C7. When [parse_csv] succeeds, its events are the parsed rows sorted
    into non-decreasing time; [temporal] applies them in that order, one
    snapshot after each: the [i]-th snapshot is the graph after events
    [0..i], where an [add] event leaves the edge present and a [remove]
    event leaves it absent; there are as many snapshots as events, and that
    number is the return value. *)
Theorem temporal_replays_sorted_events ts_of (G : Graph) rows ev
  (Hp : parse_csv ts_of rows = Some ev) :
  Sorted (fun x y => (ev_time x <= ev_time y)%Q) ev /\
  (exists raw, parse_rows ts_of rows = Some raw /\ Permutation ev raw) /\
  exists snaps, temporal ts_of G rows = Some (fold_left temporal_step ev G, snaps, length ev) /\
    length snaps = length ev /\
    forall i t u v a, nth_error ev i = Some (t, u, v, a) ->
      exists Gi, nth_error snaps i = Some Gi /\
        Gi = temporal_step (fold_left temporal_step (firstn i ev) G) (t, u, v, a) /\
        (a = "add"%string -> has_edge Gi u v = true) /\
        (a = "remove"%string -> has_edge Gi u v = false).
Proof.
  assert (Hp' := Hp). unfold parse_csv in Hp'.
  destruct (parse_rows ts_of rows) as [raw|] eqn:Hr; [|discriminate].
  injection Hp' as <-. split; [|split].
  - apply (sorted_weaken _ _ _ event_leb_time), ev_sort_sorted.
  - exists raw. split; [done|]. apply ev_sort_perm.
  - unfold temporal. rewrite Hp, temporal_loop.
    eexists. split; [reflexivity|]. simpl.
    split; [by rewrite length_map, length_seq|].
    intros i t u v a Hi. rewrite nth_error_map, nth_error_seq.
    assert (Hlt : (i < length (ev_sort raw))%nat) by (apply nth_error_Some; by rewrite Hi).
    apply Nat.ltb_lt in Hlt. rewrite Hlt. simpl.
    eexists. split; [reflexivity|].
    split; [by rewrite (firstn_snoc _ _ _ Hi), fold_left_app|].
    rewrite (firstn_snoc _ _ _ Hi), fold_left_app. cbn [fold_left].
    split; intros ->; [apply temporal_step_add|apply temporal_step_remove].
Qed.

Lemma temporal_replays_sorted_events_witness :
  parse_csv ts_ex rows_ex =
    Some [(1%Q, "a", "c", "add"); (2%Q, "a", "b", "add"); (3%Q, "a", "b", "remove")]%string /\
  exists Gf snaps, temporal ts_ex [] rows_ex = Some (Gf, snaps, 3%nat) /\ length snaps = 3%nat.
Proof.
  assert (Hp : parse_csv ts_ex rows_ex =
    Some [(1%Q, "a", "c", "add"); (2%Q, "a", "b", "add"); (3%Q, "a", "b", "remove")]%string)
    by (vm_compute; reflexivity).
  split; [exact Hp|].
  destruct (temporal_replays_sorted_events ts_ex [] rows_ex _ Hp) as (_ & _ & snaps & Ht & Hl & _).
  eexists. exists snaps. split; [exact Ht|exact Hl].
Defined.

(** ** C8: [load_graph] *)

(** C8. [load_graph(path)] raises [FileNotFoundError(path)], writing
    nothing, when [path] does not exist; when it exists and parses to a
    graph with no nodes it returns that graph, after writing the warning
    [[warn] Empty graph]. *)
Theorem load_graph_missing_or_empty path_exists read_gml path :
  (path_exists path = false ->
   load_graph path_exists read_gml path = ([], Raise (FileNotFoundError path))) /\
  (forall g, path_exists path = true -> read_gml path = Some g ->
   number_of_nodes (as_undirected g) = 0%nat ->
   load_graph path_exists read_gml path = (["[warn] Empty graph"%string], Ret (as_undirected g))).
Proof.
  unfold load_graph. split.
  - intros H. by rewrite H.
  - intros g H Hg H0. rewrite H, Hg. simpl. by rewrite H0.
Qed.

Lemma load_graph_missing_or_empty_witness :
  load_graph (fun _ => false) (fun _ => None) "g.gml" =
    ([], Raise (FileNotFoundError "g.gml")) /\
  load_graph (fun _ => true) (fun _ => Some (GDirected [] [])) "g.gml" =
    (["[warn] Empty graph"%string], Ret []).
Proof.
  split.
  - exact (proj1 (load_graph_missing_or_empty (fun _ => false) (fun _ => None) "g.gml")
                 eq_refl).
  - exact (proj2 (load_graph_missing_or_empty (fun _ => true) (fun _ => Some (GDirected [] []))
                    "g.gml") (GDirected [] []) eq_refl eq_refl eq_refl).
Defined.

(** ** [annotate] *)

Lemma existsb_eqb_In x l : existsb (String.eqb x) l = true <-> In x l.
Proof.
  rewrite existsb_exists. split.
  - intros (y & Hy & Heq). apply String.eqb_eq in Heq. by subst.
  - intros Hx. exists x. split; [done|apply String.eqb_refl].
Qed.

Lemma nodup_app_disj {A} : forall (l1 l2 : list A),
  List.NoDup (l1 ++ l2) -> forall x, In x l1 -> ~ In x l2.
Proof.
  induction l1 as [|y l1 IH]; intros l2 Hnd x Hx Hx2; [done|].
  simpl in Hnd. apply NoDup_cons_iff in Hnd as [Hy Hnd].
  destruct Hx as [<-|Hx].
  - apply Hy, in_or_app. by right.
  - by apply (IH l2 Hnd x).
Qed.

Lemma fold_insert_const (i : nat) : forall p (d : gmap string nat) x,
  fold_left (fun d n => <[n:=i]> d) p d !! x =
  if existsb (String.eqb x) p then Some i else d !! x.
Proof.
  induction p as [|a p IH]; intros d x; simpl; [done|].
  rewrite IH. destruct (existsb (String.eqb x) p); [by rewrite orb_true_r|].
  rewrite orb_false_r. destruct (String.eqb_spec x a) as [->|Hne].
  - apply lookup_insert_eq.
  - by apply lookup_insert_ne.
Qed.

Lemma community_map_from_lookup : forall parts i d x,
  List.NoDup (concat parts) ->
  (forall j p, nth_error parts j = Some p -> In x p ->
     community_map_from i parts d !! x = Some (i + j)%nat) /\
  (~ In x (concat parts) -> community_map_from i parts d !! x = d !! x).
Proof.
  induction parts as [|p parts IH]; intros i d x Hnd; simpl.
  - split; [intros [|j] ? [=]|done].
  - simpl in Hnd. pose proof (NoDup_app_remove_l _ _ Hnd) as Hnd'.
    split.
    + intros [|j] q Hj Hx; simpl in Hj.
      * injection Hj as <-. rewrite (proj2 (IH (S i) _ x Hnd')).
        -- rewrite fold_insert_const. apply existsb_eqb_In in Hx. rewrite Hx. f_equal. lia.
        -- intros Hin. by apply (nodup_app_disj _ _ Hnd x).
      * rewrite (proj1 (IH (S i) _ x Hnd') j q Hj Hx). f_equal. lia.
    + intros Hx. rewrite (proj2 (IH (S i) _ x Hnd')).
      * rewrite fold_insert_const. destruct (existsb (String.eqb x) p) eqn:He; [|done].
        exfalso. apply Hx, in_or_app. left. by apply existsb_eqb_In.
      * intros Hin. apply Hx, in_or_app. by right.
Qed.

Section Annotate.
Variable G : Graph.

Let F := fun (c : gmap string nat) (kv : string * nat) =>
  if existsb (String.eqb kv.1) (nodes G) then <[kv.1:=kv.2]> c else c.

Lemma annotate_fold_skip : forall l c x,
  (~ In x (nodes G) \/ forall v, ~ In (x, v) l) -> fold_left F l c !! x = c !! x.
Proof.
  induction l as [|[k w] l IH]; intros c x Hx; simpl; [done|].
  rewrite IH.
  - unfold F. simpl. destruct (existsb (String.eqb k) (nodes G)) eqn:Hk; [|done].
    apply lookup_insert_ne. intros ->. destruct Hx as [Hx|Hx].
    + apply Hx. by apply existsb_eqb_In.
    + by apply (Hx w); left.
  - destruct Hx as [Hx|Hx]; [by left|right]. intros v Hv. by apply (Hx v); right.
Qed.

Lemma annotate_fold_set : forall l c x v,
  List.NoDup (map fst l) -> In (x, v) l -> In x (nodes G) -> fold_left F l c !! x = Some v.
Proof.
  induction l as [|[k w] l IH]; intros c x v Hnd Hin Hx; [done|].
  simpl in *. apply NoDup_cons_iff in Hnd as [Hk Hnd].
  destruct Hin as [Heq|Hin].
  - injection Heq as -> ->. rewrite annotate_fold_skip.
    + unfold F. simpl. apply existsb_eqb_In in Hx. rewrite Hx. apply lookup_insert_eq.
    + right. intros v0 Hv. apply Hk. by apply (in_map fst) in Hv.
  - by apply IH.
Qed.

End Annotate.

Lemma fmap_fst_map {A B} (l : list (A * B)) : l.*1 = map fst l.
Proof. induction l as [|x l IH]; simpl; [done|]. by rewrite <- IH. Qed.

(** [annotate(G, parts)] for disjoint parts: a node of [G] in the [j]-th
    part gets community [j]; every other node keeps what it had, and no
    node outside [G] is given one. *)
Lemma annotate_communities (G : Graph) parts comm (Hnd : List.NoDup (concat parts)) :
  (forall j p x, nth_error parts j = Some p -> In x p -> In x (nodes G) ->
     annotate G parts comm !! x = Some j) /\
  (forall x, ~ In x (nodes G) \/ ~ In x (concat parts) ->
     annotate G parts comm !! x = comm !! x).
Proof.
  unfold annotate. split.
  - intros j p x Hj Hx HG. apply annotate_fold_set; [| |done].
    + rewrite <- fmap_fst_map. apply NoDup_ListNoDup, NoDup_fst_map_to_list.
    + apply list_elem_of_In, elem_of_map_to_list.
      exact (proj1 (community_map_from_lookup parts 0 ∅ x Hnd) j p Hj Hx).
  - intros x [Hx|Hx]; apply annotate_fold_skip; [by left|right].
    intros v Hv. apply list_elem_of_In, elem_of_map_to_list in Hv.
    rewrite (proj2 (community_map_from_lookup parts 0 ∅ x Hnd) Hx) in Hv.
    by rewrite lookup_empty in Hv.
Qed.

Lemma annotate_communities_witness :
  List.NoDup (concat [["a"; "b"]; ["c"; "e"]])%string /\
  annotate square [["a"; "b"]; ["c"; "e"]]%string ∅ !! "c"%string = Some 1%nat /\
  annotate square [["a"; "b"]; ["c"; "e"]]%string ∅ !! "e"%string = None.
Proof.
  assert (Hnd : List.NoDup (concat [["a"; "b"]; ["c"; "e"]])%string)
    by (apply nodupb_sound; vm_compute; reflexivity).
  destruct (annotate_communities square [["a"; "b"]; ["c"; "e"]]%string ∅ Hnd) as [H1 H2].
  split; [exact Hnd|]. split.
  - apply (H1 1%nat ["c"; "e"]%string); [reflexivity|simpl; tauto|simpl; tauto].
  - rewrite H2; [reflexivity|]. left. simpl. intuition discriminate.
Defined.

(** ** [girvan_newman_partition]: the shape of the result *)

Lemma insert_str_perm x l : Permutation (insert_str x l) (x :: l).
Proof.
  induction l as [|y l IH]; simpl; [done|].
  destruct (String.leb x y); [done|]. rewrite IH. apply perm_swap.
Qed.

Lemma sort_str_perm l : Permutation (sort_str l) l.
Proof. induction l as [|x l IH]; simpl; [done|]. rewrite insert_str_perm. by apply perm_skip. Qed.

Lemma insert_str_sorted x l :
  Sorted (fun a b => String.leb a b = true) l ->
  Sorted (fun a b => String.leb a b = true) (insert_str x l).
Proof.
  induction l as [|y l IH]; intros Hs; simpl; [by repeat constructor|].
  destruct (String.leb x y) eqn:Hxy; [by constructor; [|constructor]|].
  assert (Hyx : String.leb y x = true) by (destruct (String.leb_total x y); congruence).
  apply Sorted_inv in Hs as [Hs Hhd]. constructor; [by apply IH|].
  destruct l as [|z l]; simpl; [by constructor|].
  destruct (String.leb x z); constructor; [done|]. by inversion Hhd.
Qed.

Lemma sort_str_sorted l : Sorted (fun a b => String.leb a b = true) (sort_str l).
Proof. induction l as [|x l IH]; simpl; [constructor|]. by apply insert_str_sorted. Qed.

Lemma advance_in : forall k gen (comp : list (list string)),
  advance k gen comp = comp \/ In (advance k gen comp) gen.
Proof.
  induction k as [|k IH]; intros gen comp; [by left|].
  destruct gen as [|p gen]; simpl; [by left|].
  destruct (IH gen p) as [->|H]; right; [by left|by right].
Qed.

(** [girvan_newman_partition(G, n)] returns one of the partitions networkx
    produced (the connected components or a yield of [girvan_newman]),
    each community listed in ascending order of its node labels. *)
Lemma girvan_newman_partition_sorted m components gn n p :
  girvan_newman_partition m components gn n = Some p ->
  exists comp, (comp = components \/ In comp gn) /\
    Forall2 (fun c s => Permutation s c /\ Sorted (fun a b => String.leb a b = true) s) comp p.
Proof.
  unfold girvan_newman_partition.
  destruct (if Nat.eqb m 0 then Some components else head gn) as [c0|] eqn:Hf; [|done].
  intros [= <-]. exists (advance (Z.to_nat (n - 1)) gn c0). split.
  - destruct (advance_in (Z.to_nat (n - 1)) gn c0) as [->|H]; [|by right].
    destruct (Nat.eqb m 0); [injection Hf as <-; by left|].
    destruct gn as [|g gn]; [done|]. injection Hf as <-. right. by left.
  - induction (advance (Z.to_nat (n - 1)) gn c0) as [|c cs IH]; simpl; constructor; [|done].
    split; [apply sort_str_perm|apply sort_str_sorted].
Qed.

Lemma girvan_newman_partition_sorted_witness :
  girvan_newman_partition 1 [] [[["b"; "a"]; ["c"]]]%string 1 = Some [["a"; "b"]; ["c"]]%string /\
  exists comp, (comp = [] \/ In comp [[["b"; "a"]; ["c"]]]%string) /\
    Forall2 (fun c s => Permutation s c /\ Sorted (fun a b => String.leb a b = true) s)
      comp [["a"; "b"]; ["c"]]%string.
Proof.
  assert (H : girvan_newman_partition 1 [] [[["b"; "a"]; ["c"]]]%string 1 =
              Some [["a"; "b"]; ["c"]]%string) by reflexivity.
  split; [exact H|]. exact (girvan_newman_partition_sorted _ _ _ _ _ H).
Defined.

Lemma last_default {A} : forall (l : list A) d d', l <> [] -> List.last l d = List.last l d'.
Proof.
  induction l as [|x l IH]; intros d d' Hl; [done|].
  destruct l as [|y l]; [done|]. simpl. apply IH. discriminate.
Qed.

Lemma advance_last : forall (gs : list (list (list string))) k c,
  (length gs <= k)%nat -> advance k gs c = List.last gs c.
Proof.
  induction gs as [|g gs IH]; intros k c Hk.
  - destruct k; done.
  - destruct k as [|k]; simpl in Hk; [lia|]. simpl. rewrite IH; [|lia].
    destruct gs as [|g' gs]; [done|]. apply last_default. discriminate.
Qed.

(** [girvan_newman_partition(G, 2)] returns the same partition as
    [girvan_newman_partition(G, 1)] (and as any [n <= 1]): the loop draws
    from a fresh generator, whose first yield is the partition of line 49. *)
Lemma girvan_newman_partition_two_is_one m components gn n
  (Hgn : gn_contract m components gn) (Hn : (n <= 2)%Z) :
  girvan_newman_partition m components gn n = girvan_newman_partition m components gn 1.
Proof.
  unfold girvan_newman_partition. simpl.
  destruct (Z.le_gt_cases n 1) as [Hle|Hgt].
  - by replace (Z.to_nat (n - 1)) with 0%nat by lia.
  - replace (Z.to_nat (n - 1)) with 1%nat by lia.
    destruct (Nat.eqb_spec m 0) as [H0|H0].
    + rewrite (proj2 Hgn H0). done.
    + destruct gn as [|g gn]; done.
Qed.

Lemma girvan_newman_partition_two_is_one_witness :
  gn_contract 1 [] [[["a"]; ["b"; "c"]]; [["a"]; ["b"]; ["c"]]]%string /\ (2 <= 2)%Z /\
  girvan_newman_partition 1 [] [[["a"]; ["b"; "c"]]; [["a"]; ["b"]; ["c"]]]%string 2 =
  girvan_newman_partition 1 [] [[["a"]; ["b"; "c"]]; [["a"]; ["b"]; ["c"]]]%string 1.
Proof.
  assert (Hgn : gn_contract 1 [] [[["a"]; ["b"; "c"]]; [["a"]; ["b"]; ["c"]]]%string).
  { split; [|discriminate]. intros [|[|i]] p q Hp Hq; simpl in *; try discriminate.
    injection Hp as <-. injection Hq as <-. simpl. lia. }
  split; [exact Hgn|]. split; [lia|].
  exact (girvan_newman_partition_two_is_one _ _ _ 2 Hgn ltac:(lia)).
Defined.

(** [girvan_newman_partition(G, n)] on a graph without edges returns the
    connected components for every [n]; on a graph with edges it raises
    [StopIteration] (line 49, outside the [try]) when the generator yields
    nothing, and once [n - 1] reaches the number of yields it returns the
    last yield, the [StopIteration] of the loop being swallowed. *)
Lemma girvan_newman_partition_exhausted m components gn n
  (Hgn : gn_contract m components gn) :
  (m = 0%nat -> girvan_newman_partition m components gn n = Some (map sort_str components)) /\
  (m <> 0%nat -> gn = [] -> girvan_newman_partition m components gn n = None) /\
  (gn <> [] -> (length gn <= Z.to_nat (n - 1))%nat ->
   girvan_newman_partition m components gn n = Some (map sort_str (List.last gn []))).
Proof.
  unfold girvan_newman_partition. split; [|split].
  - intros ->. rewrite (proj2 Hgn eq_refl). simpl.
    destruct (Z.to_nat (n - 1)) as [|k]; [done|]. by destruct k.
  - intros Hm ->. apply Nat.eqb_neq in Hm. by rewrite Hm.
  - intros Hne Hk. destruct (Nat.eqb_spec m 0) as [H0|H0].
    + pose proof (proj2 Hgn H0) as Hg. subst gn m. simpl in *.
      rewrite advance_last; [done|simpl; lia].
    + destruct gn as [|g gs]; [done|]. cbn [head].
      rewrite advance_last; [|exact Hk].
      rewrite (last_default _ g []); [done|discriminate].
Qed.

Lemma girvan_newman_partition_exhausted_witness :
  gn_contract 1 [] [[["a"]; ["b"; "c"]]; [["a"]; ["b"]; ["c"]]]%string /\
  girvan_newman_partition 1 [] [[["a"]; ["b"; "c"]]; [["a"]; ["b"]; ["c"]]]%string 7 =
    Some [["a"]; ["b"]; ["c"]]%string.
Proof.
  assert (Hgn : gn_contract 1 [] [[["a"]; ["b"; "c"]]; [["a"]; ["b"]; ["c"]]]%string).
  { split; [|discriminate]. intros [|[|i]] p q Hp Hq; simpl in *; try discriminate.
    injection Hp as <-. injection Hq as <-. simpl. lia. }
  split; [exact Hgn|].
  exact (proj2 (proj2 (girvan_newman_partition_exhausted _ _ _ 7 Hgn)) ltac:(discriminate)
           ltac:(simpl; lia)).
Defined.

(** ** [homophily]: the two samples *)



(** ** [stats] *)

Lemma list_sum_map_add {A} (f g : A -> nat) l :
  list_sum (map (fun x => (f x + g x)%nat) l) = (list_sum (map f l) + list_sum (map g l))%nat.
Proof. induction l as [|x l IH]; simpl; [done|]. rewrite IH. lia. Qed.

Lemma count_comps (x : string) : forall cc : list (list string),
  List.NoDup (concat cc) ->
  list_sum (map (fun c => if existsb (String.eqb x) c then 1%nat else 0%nat) cc) =
  if existsb (String.eqb x) (concat cc) then 1%nat else 0%nat.
Proof.
  induction cc as [|c cc IH]; intros Hnd; simpl; [done|].
  rewrite existsb_app, IH by (by apply NoDup_app_remove_l in Hnd).
  destruct (existsb (String.eqb x) c) eqn:Hc; simpl; [|done].
  destruct (existsb (String.eqb x) (concat cc)) eqn:Hcc; [|done].
  exfalso. apply existsb_eqb_In in Hc, Hcc. by apply (nodup_app_disj _ _ Hnd x).
Qed.

Lemma comps_cover (cc : list (list string)) : forall G : list Entry,
  List.NoDup (concat cc) -> (forall e, In e G -> In (n_id e) (concat cc)) ->
  list_sum (map (fun c => length (subgraph G c)) cc) = length G.
Proof.
  unfold subgraph. induction G as [|e G IH]; intros Hnd Hin.
  - simpl. clear. induction cc; simpl; [done|]. by rewrite IHcc.
  - erewrite map_ext; [|intros c; rewrite length_map; simpl; reflexivity].
    erewrite map_ext; [|intros c; instantiate (1 := fun c =>
      ((if existsb (String.eqb (n_id e)) c then 1 else 0) +
       length (List.filter (fun e => existsb (String.eqb (n_id e)) c) G))%nat);
      simpl; by destruct (existsb (String.eqb (n_id e)) c)].
    rewrite list_sum_map_add, count_comps by done.
    assert (He : existsb (String.eqb (n_id e)) (concat cc) = true)
      by (apply existsb_eqb_In, Hin; by left).
    rewrite He. simpl. f_equal.
    rewrite <- (IH Hnd) by (intros e' He'; apply Hin; by right).
    f_equal. apply map_ext. intros c. by rewrite length_map.
Qed.

(** [stats(G)] when [nx.connected_components(G)] splits the nodes of [G]
    into non-empty components: ['n'] is the number of components,
    ['sizes'] lists their sizes, which add up to the number of nodes, and a
    graph without nodes gives [{'aspl': None, 'n': 0, 'sizes': []}]. *)
Lemma stats_sizes lib (G : Graph) (Hwf : wf G)
  (Hcc : Permutation (concat (connected_components lib G)) (nodes G))
  (Hne : Forall (fun c => c <> []) (connected_components lib G)) :
  st_n (stats lib G) = length (connected_components lib G) /\
  st_sizes (stats lib G) = map (fun c => length (subgraph G c)) (connected_components lib G) /\
  list_sum (st_sizes (stats lib G)) = number_of_nodes G /\
  (number_of_nodes G = 0%nat -> stats lib G = mkStats None 0 []).
Proof.
  assert (Hnd : List.NoDup (concat (connected_components lib G))).
  { eapply Permutation_NoDup; [symmetry; exact Hcc|apply Hwf]. }
  assert (Hsz : st_n (stats lib G) = length (connected_components lib G) /\
                st_sizes (stats lib G) =
                map (fun c => length (subgraph G c)) (connected_components lib G)).
  { unfold stats. destruct (connected_components lib G) as [|c cc]; [done|].
    simpl. by rewrite length_map, map_map. }
  destruct Hsz as [Hn Hs]. split; [done|]. split; [done|]. split.
  - rewrite Hs. unfold number_of_nodes, nodes. rewrite length_map.
    apply comps_cover; [done|]. intros e He.
    eapply Permutation_in; [symmetry; exact Hcc|]. by apply in_map.
  - intros H0. unfold number_of_nodes in H0. apply length_zero_iff_nil in H0.
    rewrite H0 in Hcc. apply Permutation_sym, Permutation_nil in Hcc.
    unfold stats. destruct (connected_components lib G) as [|c cc]; [done|].
    exfalso. simpl in Hcc. apply app_eq_nil in Hcc as [-> _].
    inversion Hne; contradiction.
Qed.

Lemma stats_sizes_witness :
  wf square /\
  Permutation (concat (connected_components lib_ex square)) (nodes square) /\
  Forall (fun c => c <> []) (connected_components lib_ex square) /\
  list_sum (st_sizes (stats lib_ex square)) = 4%nat.
Proof.
  assert (Hwf : wf square) by (apply wfb_sound; vm_compute; reflexivity).
  assert (Hcc : Permutation (concat (connected_components lib_ex square)) (nodes square))
    by reflexivity.
  assert (Hne : Forall (fun c => c <> []) (connected_components lib_ex square))
    by (repeat constructor; discriminate).
  split; [exact Hwf|]. split; [exact Hcc|]. split; [exact Hne|].
  exact (proj1 (proj2 (proj2 (stats_sizes lib_ex square Hwf Hcc Hne)))).
Defined.

Lemma lcc_fold : forall (rest : list Graph) (c0 : Graph),
  let r := fold_left (fun best H => if Nat.ltb (length best) (length H) then H else best) rest c0 in
  (r = c0 \/ In r rest) /\ forall H, In H (c0 :: rest) -> (length H <= length r)%nat.
Proof.
  induction rest as [|h rest IH]; intros c0; simpl.
  - split; [by left|]. intros H [<-|[]]. lia.
  - destruct (Nat.ltb_spec (length c0) (length h)) as [Hlt|Hge].
    + destruct (IH h) as [Hr Hm]. split; [destruct Hr as [->|Hr]; right; [by left|by right]|].
      intros H [<-|[<-|HH]].
      * etrans; [|apply Hm; by left]. lia.
      * apply Hm. by left.
      * apply Hm. by right.
    + destruct (IH c0) as [Hr Hm]. split; [destruct Hr as [->|Hr]; [by left|right; by right]|].
      intros H [<-|[<-|HH]].
      * apply Hm. by left.
      * etrans; [|apply Hm; by left]. lia.
      * apply Hm. by right.
Qed.

(** [stats(G)]['aspl'] is not [None] only when it is the average shortest
    path length of a component [LCC] with at least one edge and with as
    many nodes as any other component. *)
Lemma stats_aspl_largest lib (G : Graph) x :
  st_aspl (stats lib G) = Some x ->
  exists c, In c (connected_components lib G) /\
    x = average_shortest_path_length lib (subgraph G c) /\
    (0 < number_of_edges (subgraph G c))%nat /\
    forall c', In c' (connected_components lib G) ->
      (length (subgraph G c') <= length (subgraph G c))%nat.
Proof.
  unfold stats. destruct (connected_components lib G) as [|c0 cc] eqn:Hcc; [done|].
  simpl. destruct (lcc_fold (map (subgraph G) cc) (subgraph G c0)) as [Hr Hm].
  set (r := fold_left (fun best H => if Nat.ltb (length best) (length H) then H else best)
              (map (subgraph G) cc) (subgraph G c0)) in *.
  destruct (Nat.ltb_spec 0 (number_of_edges r)) as [Hpos|]; [|done].
  intros [= <-].
  assert (Hc : exists c, In c (c0 :: cc) /\ r = subgraph G c).
  { destruct Hr as [Hr|Hr]; [exists c0; split; [by left|done]|].
    apply in_map_iff in Hr as (c & Hc & Hin). exists c. split; [by right|done]. }
  destruct Hc as (c & Hin & Hrc). exists c. rewrite <- Hrc.
  split; [done|]. split; [done|]. split; [done|].
  intros c' Hc'. apply Hm. destruct Hc' as [<-|Hc']; [by left|right]. by apply in_map.
Qed.

Lemma stats_aspl_largest_witness :
  st_aspl (stats lib_one square) = Some 5%Q /\
  exists c, In c (connected_components lib_one square) /\
    5%Q = average_shortest_path_length lib_one (subgraph square c).
Proof.
  assert (H : st_aspl (stats lib_one square) = Some 5%Q) by (vm_compute; reflexivity).
  split; [exact H|].
  destruct (stats_aspl_largest lib_one square 5%Q H) as (c & Hc & Hx & _).
  exists c. split; [exact Hc|exact Hx].
Defined.

(** ** [simulate_failures] and [robustness] at the edges of [k] *)

Lemma edges_from_no_adj : forall (G : Graph) seen,
  (forall e, In e G -> n_adj e = []) -> edges_from seen G = [].
Proof.
  induction G as [|e G IH]; intros seen Hadj; simpl; [done|].
  rewrite (Hadj e (or_introl eq_refl)). simpl. apply IH. intros e' He'. apply Hadj. by right.
Qed.

Lemma no_edges_no_adj (G : Graph) e :
  wf G -> number_of_edges G = 0%nat -> In e G -> n_adj e = [].
Proof.
  intros Hwf H0 He. destruct (n_adj e) as [|[v a] l] eqn:Hadj; [done|exfalso].
  assert (Hh : has_edge G (n_id e) v = true).
  { apply has_edge_iff. exists a. rewrite (adj_of_first G e (wf_nodup G Hwf) He), Hadj.
    by left. }
  unfold number_of_edges in H0. apply length_zero_iff_nil in H0.
  destruct (has_edge_in_edges G _ _ Hwf Hh) as [Hin|Hin]; by rewrite H0 in Hin.
Qed.

Lemma stats_no_edges lib (G : Graph) :
  wf G -> number_of_edges G = 0%nat -> st_aspl (stats lib G) = None.
Proof.
  intros Hwf H0.
  assert (Hsub : forall c, number_of_edges (subgraph G c) = 0%nat).
  { intros c. unfold number_of_edges, edges, subgraph. rewrite edges_from_no_adj; [done|].
    intros e' He'. apply in_map_iff in He' as (e & <- & He). simpl.
    apply filter_In in He as [He _]. by rewrite (no_edges_no_adj G e Hwf H0 He). }
  unfold stats. destruct (connected_components lib G) as [|c0 cc]; [done|]. simpl.
  destruct (lcc_fold (map (subgraph G) cc) (subgraph G c0)) as [Hr _].
  set (r := fold_left (fun best H => if Nat.ltb (length best) (length H) then H else best)
              (map (subgraph G) cc) (subgraph G c0)) in *.
  assert (Hr0 : number_of_edges r = 0%nat).
  { destruct Hr as [->|Hr]; [apply Hsub|]. apply in_map_iff in Hr as (c & <- & _). apply Hsub. }
  by rewrite Hr0.
Qed.

(** [simulate_failures(G, k)] with [k >= |E|] removes every edge: the
    graph measured afterwards has the nodes of [G] and no edge, so its
    ['aspl'] is [None]. *)
Lemma simulate_failures_all_edges lib g (G : Graph) k s
  (Hs : sample_contract lib) (Hwf : wf G) (Hok : heap_ok s) (Hg : heap s !! g = Some G)
  (Hk : (Z.of_nat (number_of_edges G) <= k)%Z) :
  exists H s', simulate_failures lib g k s = Some ((stats lib G, stats lib H), s') /\
    nodes H = nodes G /\ number_of_edges H = 0%nat /\ st_aspl (stats lib H) = None.
Proof.
  destruct (simulate_failures_run lib g G k s Hs ltac:(lia) Hwf Hok Hg)
    as (rem & s' & Hrun & _ & _ & Hincl & Hnd & Hlen).
  assert (Hne : number_of_edges (remove_edges_from rem G) = 0%nat).
  { rewrite number_of_edges_remove by done.
    rewrite Z.min_r, Nat2Z.id in Hlen by lia. unfold edge_t in *. rewrite Hlen. lia. }
  exists (remove_edges_from rem G), s'. split; [done|].
  split; [apply remove_edges_from_nodes|]. split; [done|].
  apply stats_no_edges; [by apply remove_edges_from_wf|done].
Qed.

Lemma simulate_failures_all_edges_witness :
  sample_contract lib_one /\ wf square /\ heap_ok (state_ex square) /\
  heap (state_ex square) !! 0%nat = Some square /\
  (Z.of_nat (number_of_edges square) <= 5)%Z /\
  st_aspl (stats lib_one square) = Some 5%Q /\
  exists H s', simulate_failures lib_one 0 5 (state_ex square) =
    Some ((stats lib_one square, stats lib_one H), s') /\ st_aspl (stats lib_one H) = None.
Proof.
  assert (Hs : sample_contract lib_one).
  { intros r pop k Hk. exact (lib_ex_contract r pop k Hk). }
  assert (Hwf : wf square) by (apply wfb_sound; vm_compute; reflexivity).
  assert (Hg : heap (state_ex square) !! 0%nat = Some square) by reflexivity.
  split; [exact Hs|]. split; [exact Hwf|]. split; [apply heap_ok_state_ex|].
  split; [exact Hg|]. split; [vm_compute; discriminate|].
  split; [vm_compute; reflexivity|].
  destruct (simulate_failures_all_edges lib_one 0 square 5 (state_ex square) Hs Hwf
              (heap_ok_state_ex square) Hg ltac:(vm_compute; discriminate))
    as (H & s' & Hrun & _ & _ & Ha).
  exists H, s'. split; [exact Hrun|exact Ha].
Defined.

(** [simulate_failures(G, 0)] removes nothing: the statistics before and
    after are the same. *)
Lemma simulate_failures_zero lib g (G : Graph) s
  (Hs : sample_contract lib) (Hwf : wf G) (Hok : heap_ok s) (Hg : heap s !! g = Some G) :
  exists s', simulate_failures lib g 0 s = Some ((stats lib G, stats lib G), s').
Proof.
  destruct (simulate_failures_run lib g G 0 s Hs ltac:(lia) Hwf Hok Hg)
    as (rem & s' & Hrun & _ & _ & _ & _ & Hlen).
  assert (rem = []) as -> by (apply length_zero_iff_nil; rewrite Hlen; lia).
  by exists s'.
Qed.

Lemma simulate_failures_zero_witness :
  sample_contract lib_one /\ wf square /\ heap_ok (state_ex square) /\
  heap (state_ex square) !! 0%nat = Some square /\
  exists s', simulate_failures lib_one 0 0 (state_ex square) =
    Some ((stats lib_one square, stats lib_one square), s').
Proof.
  assert (Hs : sample_contract lib_one).
  { intros r pop k Hk. exact (lib_ex_contract r pop k Hk). }
  assert (Hwf : wf square) by (apply wfb_sound; vm_compute; reflexivity).
  assert (Hg : heap (state_ex square) !! 0%nat = Some square) by reflexivity.
  split; [exact Hs|]. split; [exact Hwf|]. split; [apply heap_ok_state_ex|].
  split; [exact Hg|].
  exact (simulate_failures_zero lib_one 0 square (state_ex square) Hs Hwf
           (heap_ok_state_ex square) Hg).
Defined.

Lemma random_sample_negative lib pop k s : (k < 0)%Z -> random_sample lib pop k s = None.
Proof. intros Hk. unfold random_sample. by replace (Z.ltb k 0) with true by lia. Qed.

Lemma lookup_after_copy (s : State) g (G : Graph) :
  heap s !! g = Some G -> <[next_id s:=G]> (heap s) !! g = Some G.
Proof.
  intros Hg. destruct (decide (next_id s = g)) as [<-|Hne].
  - apply lookup_insert_eq.
  - by rewrite lookup_insert_ne.
Qed.

(** A negative [k] makes [random.sample] raise: [simulate_failures(G, k)]
    raises, and so does [robustness(G, k, trials)] once [trials >= 1]; with
    [trials <= 0] no trial runs and [robustness] returns [0], whatever [k]. *)
Lemma failures_negative_k lib g (G : Graph) k trials s
  (Hg : heap s !! g = Some G) (Hk : (k < 0)%Z) :
  simulate_failures lib g k s = None /\
  robustness lib g k trials s = if Z.leb trials 0 then Some (0%Q, s) else None.
Proof.
  split.
  - unfold simulate_failures.
    rewrite (mbind_run _ _ _ _ _ (stats_obj_run lib g s G Hg)). cbv beta.
    rewrite (mbind_run _ _ _ _ _ (copy_run g s G Hg)). cbv beta.
    rewrite (mbind_run _ _ _ _ _ (get_graph_run g (mkState (<[next_id s:=G]> (heap s)) (S (next_id s)) (rng s)) G
      (lookup_after_copy s g G Hg))). cbv beta.
    apply mbind_none, random_sample_negative. lia.
  - unfold robustness. destruct (Z.leb_spec trials 0) as [Ht|Ht].
    + by replace (Z.to_nat trials) with 0%nat by lia.
    + replace (Z.to_nat trials) with (S (Z.to_nat (trials - 1))) by lia.
      cbn [robustness_trials]. apply mbind_none.
      rewrite (mbind_run _ _ _ _ _ (copy_run g s G Hg)). cbv beta.
      rewrite (mbind_run _ _ _ _ _ (get_graph_run (next_id s)
        (mkState (<[next_id s:=G]> (heap s)) (S (next_id s)) (rng s)) G (lookup_insert_eq _ _ _))).
      cbv beta. apply mbind_none, random_sample_negative. lia.
Qed.

Lemma failures_negative_k_witness :
  heap (state_ex square) !! 0%nat = Some square /\ (-1 < 0)%Z /\
  simulate_failures lib_one 0 (-1) (state_ex square) = None /\
  robustness lib_one 0 (-1) 3 (state_ex square) = None /\
  robustness lib_one 0 (-1) 0 (state_ex square) = Some (0%Q, state_ex square).
Proof.
  assert (Hg : heap (state_ex square) !! 0%nat = Some square) by reflexivity.
  split; [exact Hg|]. split; [lia|].
  destruct (failures_negative_k lib_one 0 square (-1) 3 (state_ex square) Hg ltac:(lia))
    as [H1 H2].
  split; [exact H1|]. split; [exact H2|].
  exact (proj2 (failures_negative_k lib_one 0 square (-1) 0 (state_ex square) Hg ltac:(lia))).
Defined.

(** ** Building graphs: [add_node], [add_edge], [to_undirected] *)

Lemma wf_intro (G : Graph) :
  List.NoDup (nodes G) ->
  (forall w, List.NoDup (map fst (adj_of G w))) ->
  (forall u v a, In (v, a) (adj_of G u) -> In v (nodes G)) ->
  (forall u v a, In (v, a) (adj_of G u) -> In (u, a) (adj_of G v)) ->
  wf G.
Proof.
  intros Hnd Hk Hc Hs. constructor; [done| |done|done].
  intros e He. rewrite <- (adj_of_first G e Hnd He). apply Hk.
Qed.

Lemma wf_adj_keys (G : Graph) w : wf G -> List.NoDup (map fst (adj_of G w)).
Proof.
  intros Hwf. unfold adj_of. destruct (find _ G) as [e|] eqn:Hf; [|constructor].
  apply find_some in Hf as [He _]. by apply (wf_adj_nodup G Hwf).
Qed.

Lemma find_app_l {A} (f : A -> bool) (l1 l2 : list A) :
  find f (l1 ++ l2) = match find f l1 with Some x => Some x | None => find f l2 end.
Proof. induction l1 as [|x l1 IH]; simpl; [done|]. by destruct (f x). Qed.

Lemma nodup_snoc {A} (l : list A) x : List.NoDup l -> ~ In x l -> List.NoDup (l ++ [x]).
Proof.
  intros Hnd Hx. apply (Permutation_NoDup (Permutation_cons_append l x)).
  by constructor.
Qed.

Lemma adj_of_add_node_attr u c (G : Graph) w : adj_of (add_node_attr u c G) w = adj_of G w.
Proof.
  unfold add_node_attr, adj_of. destruct (existsb (String.eqb u) (nodes G)).
  - induction G as [|e G IH]; simpl; [done|].
    destruct (String.eqb_spec (n_id e) u) as [<-|]; simpl;
      destruct (String.eqb (n_id e) w); done.
  - rewrite find_app_l. destruct (find _ G); [done|]. simpl.
    by destruct (String.eqb u w).
Qed.

Lemma nodes_add_node_attr u c (G : Graph) :
  nodes (add_node_attr u c G) = if existsb (String.eqb u) (nodes G) then nodes G else nodes G ++ [u].
Proof.
  unfold add_node_attr. destruct (existsb (String.eqb u) (nodes G)).
  - unfold nodes. rewrite map_map. apply map_ext. intros e. by destruct (String.eqb (n_id e) u).
  - unfold nodes. by rewrite map_app.
Qed.

Lemma in_nodes_add_node_attr u c (G : Graph) w :
  In w (nodes (add_node_attr u c G)) <-> In w (nodes G) \/ w = u.
Proof.
  rewrite nodes_add_node_attr. destruct (existsb (String.eqb u) (nodes G)) eqn:Hu.
  - apply existsb_exists in Hu as (x & Hx & Heq). apply String.eqb_eq in Heq. subst x.
    split; [tauto|]. intros [H| ->]; done.
  - rewrite in_app_iff. simpl. split; intros [H|H]; try tauto; [destruct H; [by right|done]|].
    right. by left.
Qed.

Lemma add_node_attr_wf u c (G : Graph) : wf G -> wf (add_node_attr u c G).
Proof.
  intros Hwf. apply wf_intro.
  - rewrite nodes_add_node_attr. destruct (existsb (String.eqb u) (nodes G)) eqn:Hu;
      [apply (wf_nodup G Hwf)|].
    apply nodup_snoc; [apply (wf_nodup G Hwf)|]. intros Hx.
    apply not_true_iff_false in Hu. apply Hu.
    apply existsb_exists. exists u. split; [done|]. apply String.eqb_refl.
  - intros w. rewrite adj_of_add_node_attr. by apply wf_adj_keys.
  - intros x y a. rewrite adj_of_add_node_attr, in_nodes_add_node_attr. intros H. left.
    by apply (wf_closed G Hwf x y a).
  - intros x y a. rewrite !adj_of_add_node_attr. apply (wf_sym G Hwf).
Qed.

Lemma adj_of_set_adj_node u v d (G : Graph) w :
  In u (nodes G) ->
  adj_of (set_adj u v d G) w = if String.eqb w u then upd_key v d (adj_of G u) else adj_of G w.
Proof.
  intros Hu. rewrite adj_of_set_adj.
  destruct (find (fun e => String.eqb (n_id e) w) G) as [e|] eqn:Hf.
  - pose proof Hf as Hf'. apply find_some in Hf' as [_ Hw]. apply String.eqb_eq in Hw.
    subst w. unfold adj_of. rewrite Hf.
    destruct (String.eqb_spec (n_id e) u) as [<-|]; [|done]. rewrite Hf. done.
  - destruct (String.eqb_spec w u) as [->|Hne].
    + exfalso. unfold nodes in Hu. apply in_map_iff in Hu as (e & Heq & He).
      apply (find_none _ _ Hf) in He. rewrite Heq, String.eqb_refl in He. discriminate.
    + unfold adj_of. by rewrite Hf.
Qed.

Lemma upd_key_in v d l y b :
  In (y, b) (upd_key v d l) <-> (y = v /\ b = d) \/ (In (y, b) l /\ y <> v).
Proof.
  unfold upd_key. destruct (existsb (fun wa => String.eqb wa.1 v) l) eqn:Hv.
  - rewrite in_map_iff. split.
    + intros ([y' b'] & Heq & Hin). simpl in Heq.
      destruct (String.eqb_spec y' v); [left; by inversion Heq|].
      right. inversion Heq. subst. tauto.
    + intros [[-> ->]|[Hin Hne]].
      * apply existsb_exists in Hv as ([y' b'] & Hin & Heq). apply String.eqb_eq in Heq.
        simpl in Heq. subst. exists (v, b'). simpl. by rewrite String.eqb_refl.
      * exists (y, b). simpl. destruct (String.eqb_spec y v); [done|]. tauto.
  - rewrite in_app_iff. simpl. split.
    + intros [Hin|[Heq|[]]]; [|inversion Heq; tauto].
      right. split; [done|]. intros ->. apply not_true_iff_false in Hv. apply Hv.
      apply existsb_exists. exists (v, b). simpl. split; [done|apply String.eqb_refl].
    + intros [[-> ->]|[Hin _]]; [right; by left|by left].
Qed.

Lemma upd_key_keys v d l : List.NoDup (map fst l) -> List.NoDup (map fst (upd_key v d l)).
Proof.
  intros Hnd. unfold upd_key. destruct (existsb (fun wa => String.eqb wa.1 v) l) eqn:Hv.
  - rewrite map_map. erewrite map_ext; [exact Hnd|]. intros [y b]. simpl.
    destruct (String.eqb_spec y v); simpl; congruence.
  - rewrite map_app. apply nodup_snoc; [done|]. simpl.
    intros Hx. apply in_map_iff in Hx as ([y b] & Hy & Hin). simpl in Hy. subst y.
    apply not_true_iff_false in Hv. apply Hv. apply existsb_exists. exists (v, b).
    split; [done|apply String.eqb_refl].
Qed.

Lemma nodes_set_adj u v d (G : Graph) : nodes (set_adj u v d G) = nodes G.
Proof.
  unfold set_adj, nodes. rewrite map_map. apply map_ext. intros e.
  by destruct (String.eqb (n_id e) u).
Qed.

Lemma find_key_some y l b :
  List.NoDup (map fst l) -> In (y, b) l ->
  find (fun wa : string * EAttr => String.eqb wa.1 y) l = Some (y, b).
Proof.
  induction l as [|[y' b'] l IH]; simpl; [done|]. intros Hnd Hin.
  apply NoDup_cons_iff in Hnd as [Hn Hnd].
  destruct Hin as [Heq|Hin].
  - inversion Heq. subst. by rewrite String.eqb_refl.
  - destruct (String.eqb_spec y' y) as [->|]; [|by apply IH].
    exfalso. apply Hn. by apply (in_map fst) in Hin.
Qed.

Lemma edge_attr_in (G : Graph) u v b :
  wf G -> edge_attr G u v = Some b <-> In (v, b) (adj_of G u).
Proof.
  intros Hwf. unfold edge_attr. split.
  - destruct (find _ (adj_of G u)) as [[y b']|] eqn:Hf; [|done]. intros [= <-].
    apply find_some in Hf as [Hin Hy]. apply String.eqb_eq in Hy. simpl in Hy. by subst.
  - intros Hin. by rewrite (find_key_some v _ b (wf_adj_keys G u Hwf) Hin).
Qed.

Section AddEdge.
Variables (u v : string) (d : EAttr) (G : Graph).
Hypothesis Hwf : wf G.

Let G1 := add_node v (add_node u G).
Let new := eattr_update (match edge_attr G1 u v with Some a => a | None => mkEAttr None None end) d.

Lemma add_edge_G1_wf : wf G1.
Proof. unfold G1, add_node. by apply add_node_attr_wf, add_node_attr_wf. Qed.

Lemma add_edge_G1_adj w : adj_of G1 w = adj_of G w.
Proof. unfold G1, add_node. by rewrite !adj_of_add_node_attr. Qed.

Lemma add_edge_G1_nodes w : In w (nodes G1) <-> In w (nodes G) \/ w = u \/ w = v.
Proof. unfold G1, add_node. rewrite !in_nodes_add_node_attr. tauto. Qed.

Lemma add_edge_attr_adj w y b :
  In (y, b) (adj_of (add_edge_attr u v d G) w) <->
  (w = v /\ y = u /\ b = new) \/ (w = u /\ y = v /\ b = new) \/
  (In (y, b) (adj_of G w) /\ ~ (w = v /\ y = u) /\ ~ (w = u /\ y = v)).
Proof.
  assert (Hu1 : In u (nodes G1)) by (apply add_edge_G1_nodes; tauto).
  assert (Hv1 : In v (nodes G1)) by (apply add_edge_G1_nodes; tauto).
  unfold add_edge_attr. fold G1. fold new.
  rewrite adj_of_set_adj_node by (by rewrite nodes_set_adj).
  rewrite !(adj_of_set_adj_node u v new G1) by done.
  rewrite <- !add_edge_G1_adj.
  destruct (String.eqb_spec w v) as [->|Hwv]; destruct (String.eqb_spec v u) as [Hvu|Hvu];
    try destruct (String.eqb_spec w u) as [Hwu|Hwu];
    rewrite ?upd_key_in; try subst; intuition congruence.
Qed.

Lemma add_edge_attr_nodes w :
  In w (nodes (add_edge_attr u v d G)) <-> In w (nodes G) \/ w = u \/ w = v.
Proof. unfold add_edge_attr. rewrite !nodes_set_adj. apply add_edge_G1_nodes. Qed.

Lemma add_edge_attr_nodes_prefix : exists l, nodes (add_edge_attr u v d G) = nodes G ++ l.
Proof.
  assert (Hp : forall x c (H : Graph), exists l, nodes (add_node_attr x c H) = nodes H ++ l).
  { intros x c H. rewrite nodes_add_node_attr.
    destruct (existsb _ _); [exists []; by rewrite app_nil_r|by eexists]. }
  unfold add_edge_attr. rewrite !nodes_set_adj. unfold G1, add_node.
  destruct (Hp u None G) as [l1 H1]. destruct (Hp v None (add_node_attr u None G)) as [l2 H2].
  exists (l1 ++ l2). by rewrite H2, H1, app_assoc.
Qed.

Lemma add_edge_attr_wf : wf (add_edge_attr u v d G).
Proof.
  pose proof add_edge_G1_wf as Hwf1.
  assert (Hu1 : In u (nodes G1)) by (apply add_edge_G1_nodes; tauto).
  assert (Hv1 : In v (nodes G1)) by (apply add_edge_G1_nodes; tauto).
  apply wf_intro.
  - unfold add_edge_attr. rewrite !nodes_set_adj. apply (wf_nodup G1 Hwf1).
  - intros w. unfold add_edge_attr. fold G1.
    rewrite adj_of_set_adj_node by (by rewrite nodes_set_adj).
    destruct (String.eqb w v); apply upd_key_keys || idtac;
      rewrite (adj_of_set_adj_node u v _ G1) by done;
      (destruct (String.eqb _ u); [apply upd_key_keys|]); apply wf_adj_keys; done.
  - intros w y b Hin. apply add_edge_attr_nodes. apply add_edge_attr_adj in Hin.
    destruct Hin as [(_ & -> & _)|[(_ & -> & _)|(Hin & _)]]; [tauto|tauto|].
    left. by apply (wf_closed G Hwf w y b).
  - intros w y b Hin. apply add_edge_attr_adj. apply add_edge_attr_adj in Hin.
    destruct Hin as [(-> & -> & ->)|[(-> & -> & ->)|(Hin & H1 & H2)]]; [tauto|tauto|].
    right. right. split; [by apply (wf_sym G Hwf)|]. tauto.
Qed.

Lemma add_edge_attr_has_edge x y :
  has_edge (add_edge_attr u v d G) x y = has_edge G x y || same_pair x y u v.
Proof.
  apply eq_true_iff_eq. rewrite orb_true_iff, !has_edge_iff.
  unfold same_pair. rewrite orb_true_iff, !andb_true_iff, !String.eqb_eq.
  split.
  - intros [b Hb]. apply add_edge_attr_adj in Hb. intuition (subst; eauto).
  - intros [[b Hb]|[[-> ->]|[-> ->]]].
    + destruct (decide (x = v /\ y = u)) as [[-> ->]|H1];
        [exists new; apply add_edge_attr_adj; tauto|].
      destruct (decide (x = u /\ y = v)) as [[-> ->]|H2];
        [exists new; apply add_edge_attr_adj; tauto|].
      exists b. apply add_edge_attr_adj. tauto.
    + exists new. apply add_edge_attr_adj. tauto.
    + exists new. apply add_edge_attr_adj. tauto.
Qed.

End AddEdge.

Lemma has_edge_sym (G : Graph) x y : wf G -> has_edge G x y = has_edge G y x.
Proof.
  intros Hwf. apply eq_true_iff_eq. rewrite !has_edge_iff.
  split; intros [a Ha]; exists a; by apply (wf_sym G Hwf).
Qed.

Lemma temporal_step_wf (G : Graph) x : wf G -> wf (temporal_step G x).
Proof.
  intros Hwf. destruct x as [[[t u] v] a]. simpl.
  destruct (String.eqb a "add"); [by apply add_edge_attr_wf|].
  destruct (String.eqb a "remove" && has_edge G u v); [by apply remove_edge_wf|done].
Qed.

(** One event of [temporal]: ['add'] adds the edge [u]-[v] (and its
    endpoints), ['remove'] takes it away and does nothing when it is
    missing, and any other action leaves the edges as they are; the graph
    stays a well-formed undirected graph. *)
Lemma temporal_step_edges (G : Graph) t u v a (Hwf : wf G) :
  wf (temporal_step G (t, u, v, a)) /\
  forall x y, has_edge (temporal_step G (t, u, v, a)) x y =
    if String.eqb a "add" then has_edge G x y || same_pair x y u v
    else if String.eqb a "remove" then has_edge G x y && negb (same_pair x y u v)
    else has_edge G x y.
Proof.
  split; [by apply temporal_step_wf|]. intros x y. simpl.
  destruct (String.eqb a "add"); [apply add_edge_attr_has_edge|].
  destruct (String.eqb a "remove"); [|done]. simpl.
  destruct (has_edge G u v) eqn:Huv; [by apply has_edge_remove_edge|].
  destruct (same_pair x y u v) eqn:Hs; [|by rewrite andb_true_r].
  rewrite andb_false_r. unfold same_pair in Hs.
  apply orb_true_iff in Hs as [Hs|Hs]; apply andb_true_iff in Hs as [H1 H2];
    apply String.eqb_eq in H1, H2; subst.
  - done.
  - by rewrite has_edge_sym.
Qed.

Lemma temporal_step_edges_witness :
  wf square /\
  has_edge (temporal_step square (1%Q, "b"%string, "d"%string, "ADD"%string)) "b" "d" = false /\
  has_edge (temporal_step square (1%Q, "b"%string, "d"%string, "add"%string)) "d" "b" = true /\
  has_edge (temporal_step square (1%Q, "a"%string, "c"%string, "remove"%string)) "c" "a" = false.
Proof.
  assert (Hwf : wf square) by (apply wfb_sound; vm_compute; reflexivity).
  split; [exact Hwf|].
  split; [rewrite (proj2 (temporal_step_edges square 1 "b" "d" "ADD" Hwf)); vm_compute; reflexivity|].
  split; [rewrite (proj2 (temporal_step_edges square 1 "b" "d" "add" Hwf)); vm_compute; reflexivity|].
  rewrite (proj2 (temporal_step_edges square 1 "a" "c" "remove" Hwf)); vm_compute; reflexivity.
Defined.

(** [temporal(G, path)] on a well-formed graph: the graph it leaves and
    every snapshot are well-formed, one snapshot per event, and each
    snapshot is the one before it after its event. *)
Lemma temporal_snapshots_wf ts_of (G : Graph) rows G' snaps n
  (Hwf : wf G) (Ht : temporal ts_of G rows = Some (G', snaps, n)) :
  wf G' /\ Forall wf snaps /\ length snaps = n /\
  exists ev, parse_csv ts_of rows = Some ev /\
    forall i x, nth_error ev i = Some x ->
      nth_error snaps i = Some (temporal_step (nth i (G :: snaps) G) x).
Proof.
  unfold temporal in Ht. destruct (parse_csv ts_of rows) as [ev|]; [|discriminate].
  rewrite temporal_loop in Ht. simpl in Ht. injection Ht as <- <- <-.
  assert (Hall : forall l (G0 : Graph), wf G0 -> wf (fold_left temporal_step l G0)).
  { induction l as [|x l IH]; intros G0 H0; simpl; [done|]. by apply IH, temporal_step_wf. }
  split; [by apply Hall|]. split.
  { apply List.Forall_forall. intros H Hin. apply in_map_iff in Hin as (i & <- & _). by apply Hall. }
  split; [by rewrite length_map, length_seq|].
  exists ev. split; [done|]. intros i x Hx.
  assert (Hi : (i < length ev)%nat) by (apply nth_error_Some; congruence).
  rewrite nth_error_map, nth_error_seq.
  replace (i <? length ev)%nat with true by (symmetry; apply Nat.ltb_lt; lia). simpl.
  rewrite (firstn_snoc ev i x Hx), fold_left_app. simpl. f_equal. f_equal.
  destruct i as [|i]; simpl; [done|].
  rewrite (nth_indep _ _ (fold_left temporal_step (firstn 1 ev) G))
    by (rewrite length_map, length_seq; lia).
  rewrite map_nth with (d := 0%nat), seq_nth by lia. reflexivity.
Qed.

Lemma temporal_snapshots_wf_witness :
  wf square /\
  exists G' snaps n, temporal ts_ex square rows_ex = Some (G', snaps, n) /\
    wf G' /\ Forall wf snaps /\ length snaps = n.
Proof.
  assert (Hwf : wf square) by (apply wfb_sound; vm_compute; reflexivity).
  split; [exact Hwf|].
  destruct (temporal ts_ex square rows_ex) as [[[G' snaps] n]|] eqn:Ht;
    [|vm_compute in Ht; discriminate].
  destruct (temporal_snapshots_wf ts_ex square rows_ex G' snaps n Hwf Ht) as (H1 & H2 & H3 & _).
  exists G', snaps, n. split; [reflexivity|]. split; [exact H1|]. split; [exact H2|exact H3].
Defined.

Lemma add_node_attr_has_edge n c (G : Graph) x y :
  has_edge (add_node_attr n c G) x y = has_edge G x y.
Proof. unfold has_edge. by rewrite adj_of_add_node_attr. Qed.

Lemma wf_empty : wf [].
Proof.
  apply wf_intro; simpl; [constructor|constructor|done|done].
Qed.

(** A directed graph read by [load_graph] is turned into a well-formed
    undirected graph: [u] and [v] are joined exactly when a directed edge
    goes from one to the other, in either direction, and its nodes are the
    listed nodes and the ends of the edges. *)
Lemma load_graph_directed path_exists read_gml path ns es
  (Hp : path_exists path = true) (Hr : read_gml path = Some (GDirected ns es)) :
  exists w G, load_graph path_exists read_gml path = (w, Ret G) /\ wf G /\
    (forall x y, has_edge G x y = existsb (fun e => same_pair x y e.1.1 e.1.2) es) /\
    (forall n, In n (nodes G) <->
       In n (map fst ns) \/ exists e, In e es /\ (n = e.1.1 \/ n = e.1.2)).
Proof.
  unfold load_graph. rewrite Hp, Hr. simpl. eexists _, _. split; [reflexivity|].
  unfold to_undirected.
  assert (Hes : forall es' (H : Graph), wf H ->
    let H' := fold_left (fun H e => add_edge_attr e.1.1 e.1.2 e.2 H) es' H in
    wf H' /\
    (forall x y, has_edge H' x y = has_edge H x y || existsb (fun e => same_pair x y e.1.1 e.1.2) es') /\
    (forall n, In n (nodes H') <-> In n (nodes H) \/ exists e, In e es' /\ (n = e.1.1 \/ n = e.1.2))).
  { induction es' as [|e es' IH]; intros H Hwf H'; simpl in H'.
    - split; [done|]. split; [intros; by rewrite orb_false_r|]. intros n. split; [tauto|].
      intros [Hn|(e & [] & _)]; done.
    - destruct (IH (add_edge_attr e.1.1 e.1.2 e.2 H) (add_edge_attr_wf _ _ _ _ Hwf))
        as (Hw & He & Hn).
      split; [exact Hw|]. split.
      + intros x y. unfold H'. rewrite He, add_edge_attr_has_edge. simpl. by rewrite orb_assoc.
      + intros n. unfold H'. rewrite Hn, add_edge_attr_nodes. split.
        * intros [[Hn'|[Hn'|Hn']]|(e' & He' & Hx)]; [tauto| | |].
          all: right; first [by exists e; split; [left|]; tauto | by exists e'; split; [right|]].
        * intros [Hn'|(e' & [<-|He'] & Hx)]; [tauto|tauto|]. right. by exists e'. }
  destruct (Hes es [] wf_empty) as (Hw & He & Hn).
  set (H0 := fold_left (fun H e => add_edge_attr e.1.1 e.1.2 e.2 H) es []) in *.
  assert (Hns : forall ns' (H : Graph), wf H ->
    let H' := fold_left (fun H n => add_node_attr n.1 n.2 H) ns' H in
    wf H' /\ (forall x y, has_edge H' x y = has_edge H x y) /\
    (forall n, In n (nodes H') <-> In n (nodes H) \/ In n (map fst ns'))).
  { induction ns' as [|m ns' IH]; intros H Hwf H'; simpl in H'.
    - split; [done|]. split; [done|]. simpl. tauto.
    - destruct (IH (add_node_attr m.1 m.2 H) (add_node_attr_wf _ _ _ Hwf)) as (Hw' & He' & Hn').
      split; [exact Hw'|]. split.
      + intros x y. unfold H'. by rewrite He', add_node_attr_has_edge.
      + intros n. unfold H'. rewrite Hn', in_nodes_add_node_attr. simpl. intuition. }
  destruct (Hns ns H0 Hw) as (Hw' & He' & Hn').
  split; [exact Hw'|]. split.
  - intros x y. rewrite He', He. reflexivity.
  - intros n. rewrite Hn', Hn. simpl. tauto.
Qed.

Lemma load_graph_directed_witness :
  (fun _ : string => true) "g.gml" = true /\
  (fun _ : string => Some (GDirected [("z"%string, None)] [("a"%string, "b"%string, ea None)]))
    "g.gml" = Some (GDirected [("z"%string, None)] [("a"%string, "b"%string, ea None)]) /\
  exists w G, load_graph (fun _ => true)
      (fun _ => Some (GDirected [("z"%string, None)] [("a"%string, "b"%string, ea None)]))
      "g.gml" = (w, Ret G) /\ has_edge G "b" "a" = true.
Proof.
  split; [reflexivity|]. split; [reflexivity|].
  destruct (load_graph_directed (fun _ => true)
      (fun _ => Some (GDirected [("z"%string, None)] [("a"%string, "b"%string, ea None)]))
      "g.gml" _ _ eq_refl eq_refl) as (w & G & Hl & _ & He & _).
  exists w, G. split; [exact Hl|]. rewrite He. reflexivity.
Defined.

(** ** [overlap] only writes ['no'] *)

Section ResignAt.

Variable g : string -> string -> EAttr -> EAttr.
Hypothesis Hg : forall u v a, factor (g u v a) = factor a.

Lemma adj_of_resign_at G u :
  adj_of (resign_at g G) u = map (fun va => (va.1, g u va.1 va.2)) (adj_of G u).
Proof.
  unfold adj_of. induction G as [|e G IH]; simpl; [done|].
  destruct (String.eqb_spec (n_id e) u) as [<-|]; [done|apply IH].
Qed.

Lemma scan_resign_at u : forall l label q,
  scan u label q (map (fun va => (va.1, g u va.1 va.2)) l) = scan u label q l.
Proof.
  induction l as [|[v a] l IH]; intros label q; simpl; [done|].
  rewrite Hg. destruct (label !! v); [destruct (Z.eqb _ _)|]; auto.
Qed.

Lemma drain_resign_at G : forall fuel label q,
  drain (resign_at g G) fuel label q = drain G fuel label q.
Proof.
  induction fuel as [|n IH]; intros label q; destruct q as [|u q]; simpl; try done.
  rewrite adj_of_resign_at, scan_resign_at.
  destruct (scan u label q (adj_of G u)) as [[]|]; auto.
Qed.

Lemma sweep_resign_at G : forall ns label,
  sweep (resign_at g G) ns label = sweep G ns label.
Proof.
  assert (Hl : length (resign_at g G) = length G) by (unfold resign_at; apply length_map).
  induction ns as [|s ns IH]; intros label; cbn [sweep]; [done|].
  destruct (label !! s); [apply IH|]. rewrite Hl, drain_resign_at.
  destruct (drain G (length G) (<[s:=1]> label) [s]); auto.
Qed.

End ResignAt.

Lemma nodes_resign_at g G : nodes (resign_at g G) = nodes G.
Proof. unfold nodes, resign_at. by rewrite map_map. Qed.

Lemma balance_resign_at g G :
  (forall u v a, factor (g u v a) = factor a) -> balance (resign_at g G) = balance G.
Proof. intros Hg. unfold balance. by rewrite nodes_resign_at, sweep_resign_at. Qed.

Lemma edges_from_resign_at g : forall G seen, edges_from seen (resign_at g G) = edges_from seen G.
Proof.
  induction G as [|e G IH]; intros seen; simpl; [done|].
  rewrite map_map. simpl. f_equal. apply IH.
Qed.

Lemma has_edge_resign_at g G x y : has_edge (resign_at g G) x y = has_edge G x y.
Proof.
  unfold has_edge. rewrite adj_of_resign_at. induction (adj_of G x) as [|wa l IH]; simpl; [done|].
  by rewrite IH.
Qed.

Lemma set_no_resign_at a b x G :
  set_no a b x G = resign_at (fun u w c =>
    if (String.eqb u a && String.eqb w b) || (String.eqb u b && String.eqb w a)
    then mkEAttr (e_sign c) (Some x) else c) G.
Proof.
  unfold set_no, resign_at. apply map_ext. intros e. f_equal. apply map_ext. intros [w c].
  simpl. by destruct (_ || _).
Qed.

Lemma set_edge_no_resign_at : forall values G,
  exists g, (forall u v a, e_sign (g u v a) = e_sign a) /\ set_edge_no values G = resign_at g G.
Proof.
  unfold set_edge_no. induction values as [|kv values IH]; intros G; simpl.
  - exists (fun _ _ a => a). split; [done|]. unfold resign_at.
    rewrite <- (map_id G) at 1. apply map_ext. intros [n c l]. simpl. f_equal.
    rewrite <- (map_id l) at 1. apply map_ext. by intros [].
  - destruct (IH (set_no kv.1.1 kv.1.2 kv.2 G)) as (g & Hg & ->).
    rewrite set_no_resign_at.
    set (h := fun u w c =>
      if (String.eqb u kv.1.1 && String.eqb w kv.1.2) || (String.eqb u kv.1.2 && String.eqb w kv.1.1)
      then mkEAttr (e_sign c) (Some kv.2) else c).
    exists (fun u w c => g u w (h u w c)). split.
    + intros u v a. rewrite Hg. unfold h. by destruct (_ || _).
    + unfold resign_at. rewrite map_map. apply map_ext. intros e. simpl. f_equal.
      rewrite map_map. reflexivity.
Qed.

(** [overlap(G)] only writes the ['no'] attribute of edges: the graph
    keeps its nodes, its edges (listed in the same order) and their signs,
    so whether it is balanced does not change. *)
Lemma overlap_keeps_structure (G : Graph) :
  nodes (overlap G).1 = nodes G /\ edges (overlap G).1 = edges G /\
  (forall x y, has_edge (overlap G).1 x y = has_edge G x y) /\
  (forall x y a, In (y, a) (adj_of G x) ->
     exists a', In (y, a') (adj_of (overlap G).1 x) /\ e_sign a' = e_sign a) /\
  balance (overlap G).1 = balance G.
Proof.
  simpl. edestruct set_edge_no_resign_at as (g & Hg & ->).
  split; [apply nodes_resign_at|]. split; [apply edges_from_resign_at|].
  split; [apply has_edge_resign_at|]. split.
  - intros x y a Hin. rewrite adj_of_resign_at. exists (g x y a). split; [|apply Hg].
    by apply (in_map (fun va : string * EAttr => (va.1, g x va.1 va.2))) in Hin.
  - apply balance_resign_at. intros u v a. unfold factor, sign_val. by rewrite Hg.
Qed.

(** ** Removing edges keeps a balanced graph balanced *)

Lemma adj_of_remove_edges_from_incl : forall rem (G : Graph) u,
  incl (adj_of (remove_edges_from rem G) u) (adj_of G u).
Proof.
  unfold remove_edges_from. induction rem as [|[a b] rem IH]; intros G u; simpl; [apply incl_refl|].
  eapply incl_tran; [apply IH|]. rewrite adj_of_remove_edge.
  destruct (has_edge G a b); [|apply incl_refl]. intros x Hx. by apply filter_In in Hx as [Hx _].
Qed.

(** A balanced graph stays balanced when edges are taken out of it, as
    [simulate_failures] and [robustness] do with [remove_edges_from]: the
    labelling that works before works after. *)
Lemma remove_edges_keeps_balance (G : Graph) rem (Hwf : wf G) (Hb : balance G = true) :
  balance (remove_edges_from rem G) = true.
Proof.
  destruct (balance_sound G Hb) as [c [Hc1 Hc2]].
  apply (balance_complete _ (remove_edges_from_wf rem G Hwf) c). split.
  - intros x. rewrite remove_edges_from_nodes. apply Hc1.
  - intros u v a Hin. apply Hc2. by apply (adj_of_remove_edges_from_incl rem G u).
Qed.

Lemma remove_edges_keeps_balance_witness :
  wf (triangle (Some (-1)) (Some (-1)) (Some 1)) /\
  balance (triangle (Some (-1)) (Some (-1)) (Some 1)) = true /\
  balance (remove_edges_from [("a"%string, "c"%string)] (triangle (Some (-1)) (Some (-1)) (Some 1)))
    = true.
Proof.
  assert (Hwf : wf (triangle (Some (-1)) (Some (-1)) (Some 1)))
    by (apply wfb_sound; vm_compute; reflexivity).
  assert (Hb : balance (triangle (Some (-1)) (Some (-1)) (Some 1)) = true)
    by (vm_compute; reflexivity).
  split; [exact Hwf|]. split; [exact Hb|].
  exact (remove_edges_keeps_balance _ [("a"%string, "c"%string)] Hwf Hb).
Defined.

(** ** [parse_csv]: bad timestamps and the events kept *)

Lemma parse_rows_spec ts_of : forall rows,
  match parse_rows ts_of rows with
  | None => exists r, In r rows /\ ts_of (timestamp r) = None
  | Some ev => Forall2 (fun r x => exists t, ts_of (timestamp r) = Some t /\
                  x = (t, source r, target r, lower (action r))) rows ev
  end.
Proof.
  induction rows as [|r rows IH]; simpl; [constructor|].
  destruct (ts_of (timestamp r)) as [t|] eqn:Ht; [|by exists r; split; [left|]].
  destruct (parse_rows ts_of rows) as [ev|].
  - constructor; [by exists t|done].
  - destruct IH as (r' & Hr' & Hn). exists r'. split; [by right|done].
Qed.

(** [parse_csv(path)] raises exactly when some row's timestamp does not
    parse; otherwise every row gives one event [(t, source, target,
    action.lower())], and the events come sorted. *)
Lemma parse_csv_rows ts_of rows :
  (parse_csv ts_of rows = None <-> exists r, In r rows /\ ts_of (timestamp r) = None) /\
  forall ev, parse_csv ts_of rows = Some ev ->
    exists ev0, Forall2 (fun r x => exists t, ts_of (timestamp r) = Some t /\
                  x = (t, source r, target r, lower (action r))) rows ev0 /\
      Permutation ev0 ev /\ Sorted (fun a b => event_leb a b = true) ev.
Proof.
  pose proof (parse_rows_spec ts_of rows) as Hs. unfold parse_csv.
  destruct (parse_rows ts_of rows) as [ev0|] eqn:Hp.
  - split.
    + split; [discriminate|]. intros (r & Hr & Hn). exfalso. clear Hp.
      induction Hs as [|r' x rows ev1 Hx _ IH]; [done|].
      destruct Hr as [<-|Hr]; [|by apply IH].
      destruct Hx as (t & Ht & _). congruence.
    + intros ev [= <-]. exists ev0. split; [done|]. split; [symmetry; apply ev_sort_perm|apply ev_sort_sorted].
  - split; [split; [done|]; intros _; done|]. discriminate.
Qed.

Lemma parse_csv_rows_witness :
  parse_csv ts_ex (rows_ex ++ [mkRow "yesterday" "a" "b" "add"]) = None /\
  exists ev, parse_csv ts_ex rows_ex = Some ev /\ length ev = length rows_ex.
Proof.
  split.
  - apply (proj1 (parse_csv_rows ts_ex (rows_ex ++ [mkRow "yesterday" "a" "b" "add"]))).
    exists (mkRow "yesterday" "a" "b" "add"). split; [simpl; tauto|reflexivity].
  - destruct (parse_csv ts_ex rows_ex) as [ev|] eqn:Hp; [|vm_compute in Hp; discriminate].
    exists ev. split; [reflexivity|].
    destruct (proj2 (parse_csv_rows ts_ex rows_ex) ev Hp) as (ev0 & H1 & H2 & _).
    pose proof (Permutation_length H2) as Hl. pose proof (Forall2_length _ _ _ H1) as Hl'.
    etransitivity; [symmetry; exact Hl|]. symmetry. exact Hl'.
Defined.

(** ** [robustness] with [k = 0] *)

Lemma mean_const (res : list nat) c :
  res <> [] -> Forall (fun x => x = c) res ->
  (mean res == inject_Z (Z.of_nat c))%Q.
Proof.
  intros Hne Hall.
  assert (Hsum : list_sum res = (length res * c)%nat).
  { clear Hne. induction Hall as [|x res -> _ IH]; simpl; [done|]. rewrite IH. lia. }
  destruct res as [|x res']; [done|]. unfold mean. rewrite Hsum.
  unfold Qeq, Qdiv, Qmult, Qinv, inject_Z. simpl.
  rewrite Pos.mul_1_l.
  change (Z.pos (Pos.of_succ_nat (length res'))) with (Z.of_nat (S (length res'))). lia.
Qed.

(** [robustness(G, 0, trials)] with at least one trial removes no edge,
    so its average is the number of connected components of [G]; the
    graph [G] is left as it was. *)
Lemma robustness_zero lib g (G : Graph) trials s
  (Hs : sample_contract lib) (Hwf : wf G) (Hok : heap_ok s) (Hg : heap s !! g = Some G)
  (Ht : (1 <= trials)%Z) :
  exists q s', robustness lib g 0 trials s = Some (q, s') /\ heap s' !! g = Some G /\
    (q == inject_Z (Z.of_nat (st_n (stats lib G))))%Q.
Proof.
  destruct (robustness_trials_run lib g Hs G Hwf 0 (Z.le_refl 0) (Z.to_nat trials) [] s Hok Hg)
    as (res & s' & Hrun & _ & Hg' & Hlen & Hall).
  exists (mean res), s'. unfold robustness. rewrite (mbind_run _ _ _ _ _ Hrun).
  split; [done|]. split; [done|]. apply mean_const.
  - intros ->. simpl in Hlen. lia.
  - eapply Forall_impl; [exact Hall|]. intros c (rem & _ & _ & Hl & ->).
    assert (rem = []) as -> by (apply length_zero_iff_nil; rewrite Hl; lia). done.
Qed.

Lemma robustness_zero_witness :
  sample_contract lib_ex /\ wf square /\ heap_ok (state_ex square) /\
  heap (state_ex square) !! 0%nat = Some square /\ (1 <= 3)%Z /\
  exists q s', robustness lib_ex 0 0 3 (state_ex square) = Some (q, s') /\
    (q == inject_Z (Z.of_nat (st_n (stats lib_ex square))))%Q.
Proof.
  assert (Hwf : wf square) by (apply wfb_sound; vm_compute; reflexivity).
  assert (Hg : heap (state_ex square) !! 0%nat = Some square) by reflexivity.
  split; [exact lib_ex_contract|]. split; [exact Hwf|]. split; [apply heap_ok_state_ex|].
  split; [exact Hg|]. split; [lia|].
  destruct (robustness_zero lib_ex 0 square 3 (state_ex square) lib_ex_contract Hwf
              (heap_ok_state_ex square) Hg ltac:(lia)) as (q & s' & Hr & _ & Hq).
  exists q, s'. split; [exact Hr|exact Hq].
Defined.

(** ** [balance] and self-loops *)

(** A node with a self-loop of negative sign would need [label[u] != label[u]],
    so [balance] answers [False]; a non-negative self-loop is no obstacle. *)
Lemma balance_negative_self_loop (G : Graph) u a
  (Hin : In (u, a) (adj_of G u)) (Hneg : (sign_val a < 0)%Z) :
  balance G = false.
Proof.
  destruct (balance G) eqn:Hb; [|done]. exfalso.
  destruct (balance_sound G Hb) as [c [_ Hc]].
  destruct (Hc u u a Hin) as [_ H]. by apply H.
Qed.

Lemma balance_negative_self_loop_witness :
  In ("a"%string, ea (Some (-2))) (adj_of [mkEntry "a" None [("a", ea (Some (-2)))]] "a") /\
  (sign_val (ea (Some (-2))) < 0)%Z /\
  balance [mkEntry "a" None [("a", ea (Some (-2)))]] = false.
Proof.
  assert (Hin : In ("a"%string, ea (Some (-2))) (adj_of [mkEntry "a" None [("a", ea (Some (-2)))]] "a"))
    by (simpl; left; reflexivity).
  assert (Hn : (sign_val (ea (Some (-2))) < 0)%Z) by (vm_compute; reflexivity).
  split; [exact Hin|]. split; [exact Hn|].
  exact (balance_negative_self_loop _ _ _ Hin Hn).
Defined.
